(** * pyreg: searching the Windows uninstall registry for an application

    A shallow embedding of [search_registry_for_application.py] and the
    properties of its fuzzy matcher, subtree walker, attribute flattener,
    top-level query and command-line entry point.

    Python [str] values are modelled as [string] over the code points
    0..255 (the Latin-1 range), on which [str.lower] and [str.strip]
    act character by character.  The registry is modelled as a tree of
    keys read through the [winreg] calls the script uses; calls that can
    raise return an error instead, and the handles opened and closed and
    the lines printed are recorded in a trace. *)

From Stdlib Require Import Ascii NArith ZArith Bool List Lia.
From stdpp Require Import gmap strings list fin_maps.

Local Open Scope N_scope.

(** ** Python strings *)

Module PyStr.

(** [str.isspace] on one code point below 256. *)
Definition isspace (c : ascii) : bool :=
  let n := N_of_ascii c in
  ((9 <=? n) && (n <=? 13)) || ((28 <=? n) && (n <=? 32))
  || (n =? 133) || (n =? 160).

(** [str.lower] on one code point below 256: A-Z and the accented capitals
    0xC0-0xDE (the multiplication sign 0xD7 apart) move up by 32. *)
Definition lower_char (c : ascii) : ascii :=
  let n := N_of_ascii c in
  if ((65 <=? n) && (n <=? 90))
     || ((192 <=? n) && (n <=? 222) && negb (n =? 215))
  then ascii_of_N (n + 32) else c.

(** [s.lower()] *)
Fixpoint lower (s : string) : string :=
  match s with
  | EmptyString => EmptyString
  | String c s' => String (lower_char c) (lower s')
  end.

(** [s.lstrip()] *)
Fixpoint lstrip (s : string) : string :=
  match s with
  | EmptyString => EmptyString
  | String c s' => if isspace c then lstrip s' else s
  end.

(** [s.rstrip()] *)
Fixpoint rstrip (s : string) : string :=
  match s with
  | EmptyString => EmptyString
  | String c s' =>
      match rstrip s' with
      | EmptyString => if isspace c then EmptyString else String c EmptyString
      | r => String c r
      end
  end.

(** [s.strip()]: leading, then trailing whitespace is dropped. *)
Definition strip (s : string) : string := rstrip (lstrip s).

(** [s.startswith(p)] *)
Fixpoint startswith (p s : string) : bool :=
  match p, s with
  | EmptyString, _ => true
  | String _ _, EmptyString => false
  | String c p', String d s' => Ascii.eqb c d && startswith p' s'
  end.

(** [a in b] for two strings: [a] occurs in [b] at some offset. *)
Fixpoint str_in (a b : string) : bool :=
  startswith a b
  || match b with
     | EmptyString => false
     | String _ b' => str_in a b'
     end.

(** Every character of the string is whitespace. *)
Fixpoint all_space (s : string) : bool :=
  match s with
  | EmptyString => true
  | String c s' => isspace c && all_space s'
  end.

(** The string does not begin with whitespace. *)
Definition clean_head (s : string) : bool :=
  match s with
  | EmptyString => true
  | String c _ => negb (isspace c)
  end.

(** The string does not end with whitespace. *)
Fixpoint clean_last (s : string) : bool :=
  match s with
  | EmptyString => true
  | String c EmptyString => negb (isspace c)
  | String _ s' => clean_last s'
  end.

(** [a] is a substring of [b]. *)
Definition Substring (a b : string) : Prop :=
  exists pre post, b = pre +:+ a +:+ post.

(** [t] is [s] with its leading and trailing whitespace trimmed. *)
Definition Trimmed (s t : string) : Prop :=
  exists l r, s = l +:+ t +:+ r
    /\ all_space l = true /\ all_space r = true
    /\ clean_head t = true /\ clean_last t = true.

End PyStr.

Import PyStr.

(** ** The fuzzy matcher *)

(** [fuzzy_match(a, b)] on two strings. *)
Definition fuzzy_match (a b : string) : bool :=
  let a_ := strip (lower a) in
  let b_ := strip (lower b) in
  str_in a_ b_ || str_in b_ a_.

(** ** Registry values, records and errors *)

(** The data of a registry value as [winreg.EnumValue] returns it: [str]
    for REG_SZ and REG_EXPAND_SZ, [int] for REG_DWORD and REG_QWORD,
    [bytes] for REG_BINARY, a list of [str] for REG_MULTI_SZ, [None] for
    an empty binary value. *)
Inductive value : Type :=
| VStr (s : string)
| VInt (n : Z)
| VBytes (b : list ascii)
| VMulti (l : list string)
| VNone.

(** The dictionary [get_key_details] builds: value name to value data. *)
Abbreviation record := (gmap string value).

(** The exceptions the script can raise. *)
Inductive error : Type :=
| OSError
| AttributeError
| TypeError
| KeyError (k : string).

Inductive result (A : Type) : Type :=
| Ok (a : A)
| Err (e : error).
Arguments Ok {A} a.
Arguments Err {A} e.

(** ** The registry *)

(** One named value under a key: the triple [EnumValue] returns. *)
Record reg_value : Type := RegValue {
  rv_name : string;
  rv_data : value;
  rv_type : Z
}.

(** A key: its name (the relative path [OpenKey] is given for it),
    whether it can be opened for reading, whether it can be queried and
    enumerated once open, its values and its subkeys in the store's
    enumeration order. *)
#[warnings="-register-all"]
Inductive reg_key : Type := RegKey {
  key_name : string;
  key_readable : bool;
  key_enumerable : bool;
  key_values : list reg_value;
  key_subkeys : list reg_key
}.

(** The local machine's store: whether HKEY_LOCAL_MACHINE can be
    connected to, and its root key. *)
Record registry : Type := Registry {
  hklm_available : bool;
  hklm : reg_key
}.

(** An open handle: where the key is, and the key. *)
Record handle : Type := Handle {
  h_path : list string;
  h_key : reg_key
}.

(** ** Effects: errors and a trace *)

(** What [print] is given: the value in terse mode, the record that
    [json.dumps] renders in verbose mode.  One [print] call is one line
    of output. *)
Inductive out_line : Type :=
| OutText (v : value)
| OutJson (m : record).

Inductive event : Type :=
| EvConnect
| EvOpen (path : list string)
| EvClose (path : list string)
| EvPrint (line : out_line).

(** A computation returns a value or raises, and leaves a trace. *)
Definition M (A : Type) : Type := (result A * list event)%type.

Definition ret {A} (a : A) : M A := (Ok a, []).

Definition raise {A} (e : error) : M A := (Err e, []).

Definition emit (ev : event) : M unit := (Ok tt, [ev]).

Definition bind {A B} (m : M A) (f : A -> M B) : M B :=
  match m with
  | (Ok a, t) => let '(r, t') := f a in (r, t ++ t')
  | (Err e, t) => (Err e, t)
  end.

Notation "x <- c1 ;; c2" := (bind c1 (fun x => c2))
  (at level 100, c1 at next level, right associativity).

Definition result_of {A} (m : M A) : result A := fst m.
Definition trace_of {A} (m : M A) : list event := snd m.

(** [for x in xs: s = body(s, x)], the loop's variables threaded as [s]. *)
Fixpoint for_each {A S} (xs : list A) (s : S) (body : S -> A -> M S) : M S :=
  match xs with
  | [] => ret s
  | x :: xs' => s' <- body s x ;; for_each xs' s' body
  end.

(** [with acquire as h: body]: the handle is closed when the block is
    left, by return or by exception; nothing is closed when the
    acquisition itself raises. *)
Definition with_handle {A} (acquire : M handle) (body : handle -> M A) : M A :=
  h <- acquire ;;
  let '(r, t) := body h in (r, t ++ [EvClose (h_path h)]).

(** ** The winreg calls *)

Fixpoint lookup_key (name : string) (ks : list reg_key) : option reg_key :=
  match ks with
  | [] => None
  | k :: ks' =>
      if String.eqb (key_name k) name then Some k else lookup_key name ks'
  end.

(** [ConnectRegistry(None, HKEY_LOCAL_MACHINE)] *)
Definition ConnectRegistry (reg : registry) : M handle :=
  if hklm_available reg
  then _ <- emit EvConnect ;; ret (Handle [] (hklm reg))
  else raise OSError.

(** [OpenKey(h, sub_key, 0, KEY_READ)] *)
Definition OpenKey (h : handle) (sub_key : string) : M handle :=
  match lookup_key sub_key (key_subkeys (h_key h)) with
  | Some k =>
      if key_readable k
      then _ <- emit (EvOpen (h_path h ++ [sub_key])) ;;
           ret (Handle (h_path h ++ [sub_key]) k)
      else raise OSError
  | None => raise OSError
  end.

(** [QueryInfoKey(h)]: the number of subkeys and the number of values
    (the last-modified time, which the script never reads, is left out). *)
Definition QueryInfoKey (h : handle) : M (nat * nat) :=
  if key_enumerable (h_key h)
  then ret (length (key_subkeys (h_key h)), length (key_values (h_key h)))
  else raise OSError.

(** [EnumKey(h, i)] *)
Definition EnumKey (h : handle) (i : nat) : M string :=
  if key_enumerable (h_key h)
  then match nth_error (key_subkeys (h_key h)) i with
       | Some k => ret (key_name k)
       | None => raise OSError
       end
  else raise OSError.

(** [EnumValue(h, i)] *)
Definition EnumValue (h : handle) (i : nat) : M (string * value * Z) :=
  if key_enumerable (h_key h)
  then match nth_error (key_values (h_key h)) i with
       | Some rv => ret (rv_name rv, rv_data rv, rv_type rv)
       | None => raise OSError
       end
  else raise OSError.

(** ** The script *)

(** [fuzzy_match(a, b)] as the walker calls it, with whatever the store
    returned for [b]: [int], [list] and [None] have no [lower]; [bytes]
    has [lower] and [strip], and then [a_ in b_] raises. *)
Definition fuzzy_match_value (a : string) (b : value) : M bool :=
  match b with
  | VStr s => ret (fuzzy_match a s)
  | VBytes _ => raise TypeError
  | VInt _ | VMulti _ | VNone => raise AttributeError
  end.

(** [get_key_details(application_info_key)] *)
Definition get_key_details (application_info_key : handle) : M record :=
  let details : record := ∅ in
  info <- QueryInfoKey application_info_key ;;
  let num_of_values := snd info in
  for_each (seq 0 num_of_values) details (fun details i =>
    values <- EnumValue application_info_key i ;;
    let '(k, v, _) := values in
    ret (<[k := v]> details)).

(** [search_hive(name_guess, hive, sub_key)] *)
Definition search_hive (name_guess : string) (hive : handle) (sub_key : string)
  : M (list record) :=
  let matches : list record := [] in
  with_handle (OpenKey hive sub_key) (fun uninstall_key =>
    let application_keys : list string := [] in
    info <- QueryInfoKey uninstall_key ;;
    let num_of_keys := fst info in
    application_keys <-
      for_each (seq 0 num_of_keys) application_keys (fun application_keys i =>
        name <- EnumKey uninstall_key i ;;
        ret (application_keys ++ [name])) ;;
    for_each application_keys matches (fun matches application_key =>
      with_handle (OpenKey uninstall_key application_key)
        (fun application_info_key =>
          info <- QueryInfoKey application_info_key ;;
          let num_of_values := snd info in
          for_each (seq 0 num_of_values) matches (fun matches i =>
            values <- EnumValue application_info_key i ;;
            let '(k, v, _) := values in
            if String.eqb (strip (lower k)) "displayname" then
              hit <- fuzzy_match_value name_guess v ;;
              if hit : bool then
                details <- get_key_details application_info_key ;;
                ret (matches ++ [details])
              else ret matches
            else ret matches)))).

Definition uninstall_hives : list string :=
  [ "SOFTWARE\Microsoft\Windows\CurrentVersion\Uninstall";
    "SOFTWARE\WOW6432Node\Microsoft\Windows\CurrentVersion\Uninstall" ].

(** [find_application_display_name_by_name(name_guess)]; the slice
    [uninstall_hives[:1]] is [firstn 1]. *)
Definition find_application_display_name_by_name
  (reg : registry) (name_guess : string) : M (list record) :=
  let matches : list record := [] in
  with_handle (ConnectRegistry reg) (fun hive =>
    for_each (firstn 1 uninstall_hives) matches (fun matches sub_key =>
      found <- search_hive name_guess hive sub_key ;;
      ret (matches ++ found))).

(** What [json.dumps] can render of the values the store returns: [str],
    [int], a list of [str] and [None], but not [bytes]. *)
Definition json_serializable (v : value) : bool :=
  match v with
  | VBytes _ => false
  | VStr _ | VInt _ | VMulti _ | VNone => true
  end.

(** [json.dumps(m, indent=2, sort_keys=True)]: the document of the
    record, or [TypeError] when some value of the record is [bytes]. *)
Definition json_dumps (m : record) : M out_line :=
  if forallb (fun kv => json_serializable (snd kv)) (map_to_list m)
  then ret (OutJson m)
  else raise TypeError.

(** [main()], with the parsed arguments [guess] and [verbose]. *)
Definition main (reg : registry) (guess : string) (verbose : bool) : M unit :=
  matches <- find_application_display_name_by_name reg guess ;;
  for_each matches tt (fun _ m =>
    if verbose then
      document <- json_dumps m ;;
      emit (EvPrint document)
    else match m !! "DisplayName" with
         | Some v => emit (EvPrint (OutText v))
         | None => raise (KeyError "DisplayName")
         end).

(** The lines printed, in order. *)
Definition stdout (t : list event) : list out_line :=
  flat_map (fun ev => match ev with EvPrint l => [l] | _ => [] end) t.

(** ** A pure reading of the walk

    The same walk by recursion on the store's lists, without handles,
    indices or trace.  The section on the walker proves that the script
    computes exactly this. *)

Definition bind_result {A B} (r : result A) (f : A -> result B) : result B :=
  match r with
  | Ok a => f a
  | Err e => Err e
  end.

Fixpoint fold_result {A S} (xs : list A) (s : S) (step : S -> A -> result S)
  : result S :=
  match xs with
  | [] => Ok s
  | x :: xs' => bind_result (step s x) (fun s' => fold_result xs' s' step)
  end.

(** The test [k.lower().strip() == "displayname"]. *)
Definition is_display_name (k : string) : bool :=
  String.eqb (strip (lower k)) "displayname".

Definition is_str (v : value) : bool :=
  match v with
  | VStr _ => true
  | _ => false
  end.

(** The record of a key: its values inserted in enumeration order, a
    later value replacing an earlier one of the same name. *)
Definition details_of (k : reg_key) : record :=
  fold_left (fun d rv => <[rv_name rv := rv_data rv]> d) (key_values k) ∅.

Definition match_value (name_guess : string) (v : value) : result bool :=
  match v with
  | VStr s => Ok (fuzzy_match name_guess s)
  | VBytes _ => Err TypeError
  | VInt _ | VMulti _ | VNone => Err AttributeError
  end.

Definition scan_value (name_guess : string) (d : record)
  (matches : list record) (rv : reg_value) : result (list record) :=
  if is_display_name (rv_name rv) then
    bind_result (match_value name_guess (rv_data rv))
      (fun hit : bool => Ok (if hit then matches ++ [d] else matches))
  else Ok matches.

Definition scan_key (name_guess : string) (matches : list record)
  (k : reg_key) : result (list record) :=
  if key_readable k then
    if key_enumerable k then
      fold_result (key_values k) matches (scan_value name_guess (details_of k))
    else Err OSError
  else Err OSError.

(** A value that makes the walker append its key's record. *)
Definition is_hit (name_guess : string) (rv : reg_value) : bool :=
  is_display_name (rv_name rv)
  && match rv_data rv with
     | VStr s => fuzzy_match name_guess s
     | _ => false
     end.

Definition hits (name_guess : string) (k : reg_key) : list reg_value :=
  List.filter (is_hit name_guess) (key_values k).

(** What one application key adds to the result: its record, once per
    hit. *)
Definition contribution (name_guess : string) (k : reg_key) : list record :=
  repeat (details_of k) (length (hits name_guess k)).

(** ** The keys a query visits *)

Definition subtree_keys (reg : registry) (sub_key : string) : list reg_key :=
  match lookup_key sub_key (key_subkeys (hklm reg)) with
  | Some uk => key_subkeys uk
  | None => []
  end.

(** The keys [OpenKey] resolves the enumerated names of [ks] to, in
    enumeration order; they are [ks] themselves when names are distinct. *)
Definition opened_keys (ks : list reg_key) : list reg_key :=
  flat_map (fun k => option_list (lookup_key (key_name k) ks)) ks.

(** The one path the slice [uninstall_hives[:1]] leaves. *)
Definition scanned_hive : string := hd "" (firstn 1 uninstall_hives).

(** The application keys under the paths the query iterates over. *)
Definition scanned_keys (reg : registry) : list reg_key :=
  flat_map (subtree_keys reg) (firstn 1 uninstall_hives).

(** The application keys under all the configured paths. *)
Definition configured_keys (reg : registry) : list reg_key :=
  flat_map (subtree_keys reg) uninstall_hives.

Definition key_ok (k : reg_key) : bool := key_readable k && key_enumerable k.

Definition subtree_ok (reg : registry) (sub_key : string) : bool :=
  match lookup_key sub_key (key_subkeys (hklm reg)) with
  | Some uk => key_ok uk
  | None => false
  end.

(** Every value named like a display name holds a string. *)
Definition display_names_typed (k : reg_key) : bool :=
  forallb (fun rv => negb (is_display_name (rv_name rv)) || is_str (rv_data rv))
    (key_values k).

Definition app_key_ok (k : reg_key) : bool :=
  key_ok k && display_names_typed k.

(** The store can be connected to, the scanned uninstall key can be
    opened and enumerated, and its subkeys have distinct names. *)
Definition reachable (reg : registry) : Prop :=
  hklm_available reg = true
  /\ forallb (subtree_ok reg) (firstn 1 uninstall_hives) = true
  /\ NoDup (map key_name (scanned_keys reg)).

(** Nothing on the query's way fails: the store is reachable, every
    scanned application key can be opened and enumerated, and every
    display name is a string. *)
Definition healthy (reg : registry) : Prop :=
  reachable reg
  /\ forallb app_key_ok (scanned_keys reg) = true.

(** Events of opening and closing keys below the root. *)
Definition is_handle_event (ev : event) : bool :=
  match ev with
  | EvOpen _ | EvClose _ => true
  | _ => false
  end.

Definition is_connect (ev : event) : bool :=
  match ev with
  | EvConnect => true
  | _ => false
  end.

(** Every event the computation leaves belongs to the class [P]. *)
Definition within (P : event -> bool) {A} (m : M A) : Prop :=
  forallb P (trace_of m) = true.

(** ** Removing an application key from the store *)

Definition drop_key (name : string) (ks : list reg_key) : list reg_key :=
  List.filter (fun k => negb (String.eqb (key_name k) name)) ks.

Definition with_subkeys (k : reg_key) (ks : list reg_key) : reg_key :=
  RegKey (key_name k) (key_readable k) (key_enumerable k) (key_values k) ks.

(** The store without the subkey [name] of the root's subkey [sub_key]. *)
Definition without_app_key (sub_key name : string) (reg : registry)
  : registry :=
  Registry (hklm_available reg)
    (with_subkeys (hklm reg)
       (map (fun uk =>
               if String.eqb (key_name uk) sub_key
               then with_subkeys uk (drop_key name (key_subkeys uk))
               else uk)
          (key_subkeys (hklm reg)))).

(** ** Fixture stores *)

Definition REG_SZ : Z := 1.
Definition REG_DWORD : Z := 4.

Definition sz (name data : string) : reg_value :=
  RegValue name (VStr data) REG_SZ.

Definition dword (name : string) (n : Z) : reg_value :=
  RegValue name (VInt n) REG_DWORD.

(** A readable application key without subkeys. *)
Definition app_key (name : string) (values : list reg_value) : reg_key :=
  RegKey name true true values [].

(** A machine whose two uninstall keys hold the given application keys. *)
Definition machine (native wow64 : list reg_key) : registry :=
  Registry true
    (RegKey "HKEY_LOCAL_MACHINE" true true []
       [ RegKey "SOFTWARE\Microsoft\Windows\CurrentVersion\Uninstall"
           true true [] native;
         RegKey "SOFTWARE\WOW6432Node\Microsoft\Windows\CurrentVersion\Uninstall"
           true true [] wow64 ]).

Definition key_A : reg_key :=
  app_key "A" [sz "DisplayName" "Notepad++"; sz "Version" "8.0"].

Definition key_B : reg_key :=
  app_key "B" [sz "DisplayName" "VLC media player"; sz "Version" "3.0"].

(** The fixture of the specification's testable properties. *)
Definition fixture : registry := machine [key_A; key_B] [].

Definition record_A : record :=
  <["Version" := VStr "8.0"]> (<["DisplayName" := VStr "Notepad++"]> ∅).

Definition record_B : record :=
  <["Version" := VStr "3.0"]> (<["DisplayName" := VStr "VLC media player"]> ∅).

(** A machine on which only the second configured path holds a match. *)
Definition wow64_only : registry := machine [] [key_A].

(** An application whose display name is spelled in lower case. *)
Definition lowercase_name : registry :=
  machine [app_key "X" [sz "displayname" "Foo"]] [].

(** An application without a display name. *)
Definition unnamed_app : registry :=
  machine [app_key "X" [sz "Version" "1.0"]] [].

(** An application whose display name is stored as a number. *)
Definition numeric_name : registry :=
  machine [app_key "X" [dword "DisplayName" 7]] [].

(** An application with two values named like a display name. *)
Definition key_twice : reg_key :=
  app_key "X" [sz "DisplayName" "Foo"; sz " displayname" "Foobar"].

Definition twice_named : registry := machine [key_twice; key_B] [].

(** A store that cannot be connected to, and one with a locked
    application key between two readable ones. *)
Definition offline : registry := Registry false (hklm fixture).

Definition key_locked : reg_key :=
  RegKey "L" false true [sz "DisplayName" "Notepad"] [].

Definition locked : registry := machine [key_A; key_locked; key_B] [].

(** An application with a numeric value that is not a display name. *)
Definition key_sized : reg_key :=
  app_key "S" [sz "DisplayName" "Notepad++"; dword "EstimatedSize" 4096].

Definition sized : registry := machine [key_sized] [].

(** An application without a display name between two that have one. *)
Definition key_bare : reg_key := app_key "C" [sz "Version" "1.0"].

Definition with_bare : registry := machine [key_A; key_bare; key_B] [].

(** ** Stores that fail *)

(** A machine whose scanned uninstall key can be opened but not
    enumerated. *)
Definition sealed_hive : registry :=
  Registry true
    (RegKey "HKEY_LOCAL_MACHINE" true true []
       [ RegKey "SOFTWARE\Microsoft\Windows\CurrentVersion\Uninstall"
           true false [] [key_A] ]).

(** An application with a binary value beside its display name. *)
Definition binary_value : registry :=
  machine
    [ app_key "X"
        [ sz "DisplayName" "Foo";
          RegValue "Blob" (VBytes ["001"%char; "002"%char]) 3 ] ]
    [].

(** ** Open handles *)

(** Replays a trace against the stack of open handles, of which at most
    [limit] may be open at once: connecting and opening push a handle,
    closing must close the handle opened last, printing leaves the stack
    alone.  [None] when the trace breaks this discipline. *)
Fixpoint replay (limit : nat) (t : list event) (st : list (list string))
  : option (list (list string)) :=
  match t with
  | [] => Some st
  | EvConnect :: t' =>
      if Nat.ltb (length st) limit then replay limit t' ([] :: st) else None
  | EvOpen p :: t' =>
      if Nat.ltb (length st) limit then replay limit t' (p :: st) else None
  | EvClose p :: t' =>
      match st with
      | q :: st' => if bool_decide (p = q) then replay limit t' st' else None
      | [] => None
      end
  | EvPrint _ :: t' => replay limit t' st
  end.

(** The trace closes what it opens, last opened first, and needs at most
    [n] handles beyond those already open. *)
Definition fits (limit n : nat) (t : list event) : Prop :=
  forall st, (length st + n <= limit)%nat -> replay limit t st = Some st.

(** ** Terse output *)

(** What terse mode prints for a list of matches: the value spelled
    [DisplayName] of each match, up to the first match without one. *)
Fixpoint terse_lines (matches : list record) : list out_line :=
  match matches with
  | [] => []
  | m :: matches' =>
      match m !! "DisplayName" with
      | Some v => OutText v :: terse_lines matches'
      | None => []
      end
  end.

(** ** More fixture stores *)

(** A key with two values of the same name. *)
Definition key_renamed : reg_key :=
  app_key "K" [sz "Name" "old"; sz "Version" "1"; sz "Name" "new"].

(** The fixture with one more application under the second path. *)
Definition fixture_wow64 : registry := machine [key_A; key_B] [key_twice].

(** A display name in lower case between two spelled [DisplayName]. *)
Definition mixed_spelling : registry :=
  machine [key_A; app_key "X" [sz "displayname" "Foo"]; key_B] [].

(** The record has an entry spelled exactly [DisplayName]. *)
Definition has_exact_key (m : record) : bool :=
  match m !! "DisplayName" with
  | Some _ => true
  | None => false
  end.

(** * Properties *)

(** Discharges [reachable] and [healthy] on a concrete store. *)
Ltac store_by_computation :=
  repeat match goal with
         | |- healthy _ => split
         | |- reachable _ => split; [|split]
         | |- NoDup _ => apply (bool_decide_unpack _); vm_compute; reflexivity
         | |- _ = _ => vm_compute; reflexivity
         end.

(** ** Strings *)

Section StringFacts.

Implicit Types (s t p l r a b : string) (c d : ascii).

Lemma str_app_nil_l s : "" +:+ s = s.
Proof. reflexivity. Qed.

Lemma str_app_cons c s t : String c s +:+ t = String c (s +:+ t).
Proof. reflexivity. Qed.

Lemma str_app_nil_r s : s +:+ "" = s.
Proof.
  induction s as [|c s IH]; [reflexivity|]. now rewrite str_app_cons, IH.
Qed.

(** Lowercasing never turns a character into or out of whitespace. *)
Lemma isspace_lower_char c : isspace (lower_char c) = isspace c.
Proof. destruct c as [[] [] [] [] [] [] [] []]; vm_compute; reflexivity. Qed.

Lemma lstrip_lower s : lstrip (lower s) = lower (lstrip s).
Proof.
  induction s as [|c s IH]; simpl; [reflexivity|].
  rewrite isspace_lower_char. destruct (isspace c); [exact IH | reflexivity].
Qed.

Lemma rstrip_lower s : rstrip (lower s) = lower (rstrip s).
Proof.
  induction s as [|c s IH]; simpl; [reflexivity|].
  rewrite IH, isspace_lower_char.
  destruct (rstrip s); simpl; [destruct (isspace c)|]; reflexivity.
Qed.

(** The script lowercases and then strips; trimming first and
    lowercasing afterwards gives the same string. *)
Lemma strip_lower s : strip (lower s) = lower (strip s).
Proof. unfold strip. now rewrite lstrip_lower, rstrip_lower. Qed.

Lemma startswith_spec p s :
  startswith p s = true <-> exists post, s = p +:+ post.
Proof.
  revert s; induction p as [|c p IH]; intros s; simpl.
  - split; [intros _; exists s; reflexivity | reflexivity].
  - destruct s as [|d s].
    + split; [discriminate | intros [post H]; discriminate].
    + rewrite andb_true_iff, IH. split.
      * intros [Hc [post ->]]. apply Ascii.eqb_eq in Hc as ->.
        exists post; reflexivity.
      * intros [post H]. rewrite str_app_cons in H. injection H as -> ->.
        split; [apply Ascii.eqb_refl | exists post; reflexivity].
Qed.

(** Python's [in] on strings decides the substring relation. *)
Lemma str_in_spec a b : str_in a b = true <-> Substring a b.
Proof.
  induction b as [|d b IH]; simpl.
  - rewrite orb_false_r, startswith_spec. split.
    + intros [post H]. exists "", post. exact H.
    + intros [pre [post H]]. destruct pre; [exists post; exact H|].
      discriminate.
  - rewrite orb_true_iff, startswith_spec, IH. split.
    + intros [[post H] | [pre [post H]]].
      * exists "", post. exact H.
      * exists (String d pre), post. now rewrite str_app_cons, H.
    + intros [pre [post H]]. destruct pre as [|c pre].
      * left. exists post. exact H.
      * right. rewrite str_app_cons in H. injection H as _ H.
        exists pre, post. exact H.
Qed.

Lemma lstrip_all_space l s : all_space l = true -> lstrip (l +:+ s) = lstrip s.
Proof.
  induction l as [|c l IH]; [reflexivity|].
  simpl all_space. rewrite andb_true_iff. intros [Hc Hl].
  rewrite str_app_cons. simpl. rewrite Hc. now apply IH.
Qed.

Lemma lstrip_clean s : clean_head s = true -> lstrip s = s.
Proof.
  destruct s as [|c s]; simpl; [reflexivity|].
  intros H. apply negb_true_iff in H. now rewrite H.
Qed.

Lemma rstrip_all_space r : all_space r = true -> rstrip r = "".
Proof.
  induction r as [|c r IH]; simpl; [reflexivity|].
  rewrite andb_true_iff. intros [Hc Hr]. now rewrite (IH Hr), Hc.
Qed.

Lemma rstrip_clean t r :
  clean_last t = true -> all_space r = true -> rstrip (t +:+ r) = t.
Proof.
  intros Ht Hr. induction t as [|c t IH].
  - now apply rstrip_all_space.
  - rewrite str_app_cons. simpl. destruct t as [|d t].
    + rewrite str_app_nil_l, (rstrip_all_space _ Hr).
      simpl in Ht. apply negb_true_iff in Ht. now rewrite Ht.
    + rewrite (IH Ht). reflexivity.
Qed.

(** Whatever a trimmed form of [s] is, it is what [strip] returns. *)
Lemma Trimmed_strip s t : Trimmed s t -> t = strip s.
Proof.
  intros (l & r & -> & Hl & Hr & Hh & Ht). unfold strip.
  rewrite (lstrip_all_space _ _ Hl). destruct t as [|c t].
  - rewrite str_app_nil_l, <- (str_app_nil_r r), (lstrip_all_space _ "" Hr).
    reflexivity.
  - rewrite lstrip_clean; [|rewrite str_app_cons; exact Hh].
    symmetry. now apply rstrip_clean.
Qed.

Lemma lstrip_split s :
  exists l, s = l +:+ lstrip s /\ all_space l = true.
Proof.
  induction s as [|c s (l & Hs & Hl)]; simpl.
  - exists "". split; reflexivity.
  - destruct (isspace c) eqn:Hc.
    + exists (String c l). rewrite str_app_cons, <- Hs. simpl. now rewrite Hc, Hl.
    + exists "". split; reflexivity.
Qed.

Lemma lstrip_clean_head s : clean_head (lstrip s) = true.
Proof.
  induction s as [|c s IH]; simpl; [reflexivity|].
  destruct (isspace c) eqn:Hc; [exact IH | simpl; now rewrite Hc].
Qed.

Lemma rstrip_split s :
  exists r, s = rstrip s +:+ r /\ all_space r = true.
Proof.
  induction s as [|c s (r & Hs & Hr)]; simpl.
  - exists "". split; reflexivity.
  - destruct (rstrip s) as [|d u] eqn:Hu.
    + destruct (isspace c) eqn:Hc.
      * exists (String c r). rewrite str_app_nil_l in *. subst r. simpl.
        now rewrite Hc, Hr.
      * exists r. rewrite str_app_cons, <- Hs. split; [reflexivity | exact Hr].
    + exists r. rewrite str_app_cons, <- Hs. split; [reflexivity | exact Hr].
Qed.

Lemma rstrip_clean_last s : clean_last (rstrip s) = true.
Proof.
  induction s as [|c s IH]; simpl; [reflexivity|].
  destruct (rstrip s) as [|d u].
  - destruct (isspace c) eqn:Hc; simpl; [reflexivity | now rewrite Hc].
  - exact IH.
Qed.

Lemma rstrip_clean_head s : clean_head s = true -> clean_head (rstrip s) = true.
Proof.
  destruct s as [|c s]; simpl; [reflexivity|]. intros Hc.
  destruct (rstrip s); [|exact Hc].
  apply negb_true_iff in Hc. rewrite Hc. simpl. now rewrite Hc.
Qed.

(** [strip] does trim: every string has a trimmed form. *)
Lemma strip_Trimmed s : Trimmed s (strip s).
Proof.
  destruct (lstrip_split s) as (l & Hs & Hl).
  destruct (rstrip_split (lstrip s)) as (r & Hs' & Hr).
  exists l, r. unfold strip. rewrite <- Hs', <- Hs.
  repeat split; try assumption.
  - apply rstrip_clean_head, lstrip_clean_head.
  - apply rstrip_clean_last.
Qed.

Lemma str_in_empty b : str_in "" b = true.
Proof. destruct b; reflexivity. Qed.

End StringFacts.

(** ** The fuzzy matcher *)

(** The matcher in terms of the substring relation, on the strings the
    script compares. *)
Lemma fuzzy_match_substring (a b : string) :
  fuzzy_match a b = true
  <-> Substring (lower (strip a)) (lower (strip b))
      \/ Substring (lower (strip b)) (lower (strip a)).
Proof.
  unfold fuzzy_match. cbv zeta.
  rewrite orb_true_iff, !str_in_spec, !strip_lower. reflexivity.
Qed.

(** C2.  For all strings [a] and [b], with [ta] and [tb] their forms
    trimmed of leading and trailing whitespace, [fuzzy_match a b] is true
    if and only if the lowercased [ta] is a substring of the lowercased
    [tb] or the other way round; and the call on two strings never
    raises: it returns that boolean. *)
Theorem fuzzy_match_iff_substring (a b ta tb : string) :
  Trimmed a ta -> Trimmed b tb ->
  result_of (fuzzy_match_value a (VStr b)) = Ok (fuzzy_match a b)
  /\ (fuzzy_match a b = true <->
        Substring (lower ta) (lower tb) \/ Substring (lower tb) (lower ta)).
Proof.
  intros Ha Hb. split; [reflexivity|].
  apply Trimmed_strip in Ha as ->. apply Trimmed_strip in Hb as ->.
  apply fuzzy_match_substring.
Qed.

Lemma fuzzy_match_iff_substring_witness :
  Trimmed " Foo " "Foo" /\ Trimmed "foobar  " "foobar"
  /\ result_of (fuzzy_match_value " Foo " (VStr "foobar  "))
     = Ok (fuzzy_match " Foo " "foobar  ")
  /\ (fuzzy_match " Foo " "foobar  " = true <->
        Substring (lower "Foo") (lower "foobar")
        \/ Substring (lower "foobar") (lower "Foo")).
Proof.
  assert (H1 : Trimmed " Foo " "Foo").
  { exists " ", " ". repeat split; reflexivity. }
  assert (H2 : Trimmed "foobar  " "foobar").
  { exists "", "  ". repeat split; reflexivity. }
  split; [exact H1 | split; [exact H2 |]].
  exact (fuzzy_match_iff_substring " Foo " "foobar  " "Foo" "foobar" H1 H2).
Defined.

(** C7.  [fuzzy_match] is symmetric in its two arguments. *)
Theorem fuzzy_match_symmetric (a b : string) :
  fuzzy_match a b = fuzzy_match b a.
Proof. unfold fuzzy_match. cbv zeta. apply orb_comm. Qed.

(** An empty guess matches every string. *)
Lemma fuzzy_match_empty (b : string) : fuzzy_match "" b = true.
Proof. unfold fuzzy_match. cbv zeta. simpl. now rewrite str_in_empty. Qed.

(** ** Results of monadic code *)

Section Results.

Context {A B : Type}.

Lemma result_of_bind (m : M A) (f : A -> M B) :
  result_of (x <- m ;; f x) = bind_result (result_of m) (fun a => result_of (f a)).
Proof.
  destruct m as [[a|e] t]; simpl; [|reflexivity].
  destruct (f a) as [r t']. reflexivity.
Qed.

Lemma trace_of_bind_ok (m : M A) (f : A -> M B) (a : A) :
  result_of m = Ok a ->
  trace_of (x <- m ;; f x) = trace_of m ++ trace_of (f a).
Proof.
  destruct m as [[a'|e] t]; simpl; [|discriminate].
  intros [= ->]. destruct (f a) as [r t']. reflexivity.
Qed.

Lemma trace_of_bind_err (m : M A) (f : A -> M B) (e : error) :
  result_of m = Err e -> trace_of (x <- m ;; f x) = trace_of m.
Proof. destruct m as [[a'|e'] t]; simpl; [discriminate | reflexivity]. Qed.

End Results.

Lemma result_of_with_handle {A} (acquire : M handle) (body : handle -> M A) :
  result_of (with_handle acquire body)
  = bind_result (result_of acquire) (fun h => result_of (body h)).
Proof.
  unfold with_handle. rewrite result_of_bind.
  destruct (result_of acquire) as [h|e]; simpl; [|reflexivity].
  destruct (body h) as [r t]. reflexivity.
Qed.

Lemma result_of_for_each {A S} (xs : list A) (s : S) (body : S -> A -> M S) :
  result_of (for_each xs s body)
  = fold_result xs s (fun s x => result_of (body s x)).
Proof.
  revert s; induction xs as [|x xs IH]; intros s; simpl; [reflexivity|].
  rewrite result_of_bind. destruct (result_of (body s x)); simpl; auto.
Qed.

Lemma fold_result_ext {A S} (xs : list A) (s : S) (f g : S -> A -> result S) :
  (forall s x, In x xs -> f s x = g s x) ->
  fold_result xs s f = fold_result xs s g.
Proof.
  revert s; induction xs as [|x xs IH]; intros s H; simpl; [reflexivity|].
  rewrite (H s x (or_introl eq_refl)). destruct (g s x); simpl; [|reflexivity].
  apply IH. intros s' y Hy. apply H. now right.
Qed.

(** A loop over the indices of a list, reading the list at each index,
    is a fold over the list. *)
Lemma fold_result_seq {A S} (l : list A) (s : S)
  (body : S -> nat -> result S) (step : S -> A -> result S) :
  (forall s i x, nth_error l i = Some x -> body s i = step s x) ->
  fold_result (seq 0 (length l)) s body = fold_result l s step.
Proof.
  intros H.
  enough (G : forall suf pre s, l = pre ++ suf ->
            fold_result (seq (length pre) (length suf)) s body
            = fold_result suf s step).
  { apply (G l [] s). reflexivity. }
  induction suf as [|x suf IH]; intros pre s' Hl; simpl; [reflexivity|].
  rewrite (H s' (length pre) x).
  - destruct (step s' x) as [s''|e]; simpl; [|reflexivity].
    specialize (IH (pre ++ [x]) s''). rewrite length_app in IH. simpl in IH.
    rewrite Nat.add_1_r in IH. apply IH. rewrite <- app_assoc. exact Hl.
  - rewrite Hl, nth_error_app2, Nat.sub_diag; [reflexivity | lia].
Qed.

Lemma fold_result_pure {A S} (xs : list A) (s : S) (f : S -> A -> S) :
  fold_result xs s (fun s x => Ok (f s x)) = Ok (fold_left f xs s).
Proof. revert s; induction xs as [|x xs IH]; intros s; simpl; auto. Qed.

(** ** The walker computes the pure walk *)

Section Walker.

Variable name_guess : string.

Lemma lookup_key_In name ks k :
  lookup_key name ks = Some k -> In k ks /\ key_name k = name.
Proof.
  induction ks as [|k' ks IH]; simpl; [discriminate|].
  destruct (String.eqb_spec (key_name k') name) as [E|N].
  - intros [= ->]. auto.
  - intros H. destruct (IH H). auto.
Qed.

Lemma lookup_key_Some k ks : In k ks -> lookup_key (key_name k) ks <> None.
Proof.
  induction ks as [|k' ks IH]; simpl; [tauto|].
  intros [-> | H].
  - now rewrite String.eqb_refl.
  - destruct (String.eqb (key_name k') (key_name k)); [discriminate | auto].
Qed.

Lemma lookup_key_NoDup k ks :
  NoDup (map key_name ks) -> In k ks -> lookup_key (key_name k) ks = Some k.
Proof.
  induction ks as [|k' ks IH]; simpl; [tauto|].
  intros Hnd [-> | H].
  - now rewrite String.eqb_refl.
  - apply NoDup_cons in Hnd as [Hk' Hnd].
    destruct (String.eqb_spec (key_name k') (key_name k)) as [E|N]; [|auto].
    exfalso. apply Hk'. rewrite E. apply list_elem_of_In. now apply in_map.
Qed.

Lemma opened_keys_In ks k : In k (opened_keys ks) -> In k ks.
Proof.
  unfold opened_keys. rewrite in_flat_map. intros (k' & _ & Hk).
  destruct (lookup_key (key_name k') ks) as [k''|] eqn:E; simpl in Hk; [|tauto].
  destruct Hk as [-> | []]. now apply lookup_key_In in E.
Qed.

Lemma opened_keys_NoDup ks : NoDup (map key_name ks) -> opened_keys ks = ks.
Proof.
  intros Hnd. unfold opened_keys.
  enough (G : forall l, (forall k, In k l -> In k ks) ->
            flat_map (fun k => option_list (lookup_key (key_name k) ks)) l = l)
    by (apply G; auto).
  induction l as [|k l IH]; intros Hl; simpl; [reflexivity|].
  rewrite (lookup_key_NoDup k ks Hnd) by (apply Hl; now left).
  simpl. f_equal. apply IH. intros k' Hk'. apply Hl. now right.
Qed.

Lemma get_key_details_result h :
  key_enumerable (h_key h) = true ->
  result_of (get_key_details h) = Ok (details_of (h_key h)).
Proof.
  intros He. unfold get_key_details, QueryInfoKey. rewrite He.
  rewrite result_of_bind. simpl. rewrite result_of_for_each.
  unfold details_of. rewrite <- fold_result_pure.
  apply fold_result_seq. intros d i rv Hi.
  unfold EnumValue. rewrite He, Hi. reflexivity.
Qed.

Lemma match_value_result v :
  result_of (fuzzy_match_value name_guess v) = match_value name_guess v.
Proof. destruct v; reflexivity. Qed.

(** The loop over the values of an open application key. *)
Lemma scan_values_result h matches :
  key_enumerable (h_key h) = true ->
  result_of
    (for_each (seq 0 (length (key_values (h_key h)))) matches
       (fun matches i =>
          values <- EnumValue h i ;;
          let '(k, v, _) := values in
          if String.eqb (strip (lower k)) "displayname" then
            hit <- fuzzy_match_value name_guess v ;;
            if hit : bool then
              details <- get_key_details h ;;
              ret (matches ++ [details])
            else ret matches
          else ret matches))
  = fold_result (key_values (h_key h)) matches
      (scan_value name_guess (details_of (h_key h))).
Proof.
  intros He. rewrite result_of_for_each.
  apply fold_result_seq. intros ms i rv Hi.
  rewrite result_of_bind. unfold EnumValue. rewrite He, Hi. simpl.
  unfold scan_value, is_display_name.
  destruct (String.eqb (strip (lower (rv_name rv))) "displayname");
    [|reflexivity].
  rewrite result_of_bind, match_value_result.
  destruct (match_value name_guess (rv_data rv)) as [[|]|e]; simpl;
    try reflexivity.
  rewrite result_of_bind, (get_key_details_result h He). reflexivity.
Qed.

Lemma OpenKey_result h sub_key :
  result_of (OpenKey h sub_key)
  = match lookup_key sub_key (key_subkeys (h_key h)) with
    | Some k =>
        if key_readable k then Ok (Handle (h_path h ++ [sub_key]) k)
        else Err OSError
    | None => Err OSError
    end.
Proof.
  unfold OpenKey. destruct (lookup_key sub_key (key_subkeys (h_key h))) as [k|];
    [|reflexivity].
  destruct (key_readable k); reflexivity.
Qed.

(** Opening one application key by name and scanning it. *)
Lemma scan_key_result uninstall_key application_key matches :
  result_of
    (with_handle (OpenKey uninstall_key application_key)
       (fun application_info_key =>
          info <- QueryInfoKey application_info_key ;;
          let num_of_values := snd info in
          for_each (seq 0 num_of_values) matches (fun matches i =>
            values <- EnumValue application_info_key i ;;
            let '(k, v, _) := values in
            if String.eqb (strip (lower k)) "displayname" then
              hit <- fuzzy_match_value name_guess v ;;
              if hit : bool then
                details <- get_key_details application_info_key ;;
                ret (matches ++ [details])
              else ret matches
            else ret matches)))
  = match lookup_key application_key (key_subkeys (h_key uninstall_key)) with
    | Some k => scan_key name_guess matches k
    | None => Err OSError
    end.
Proof.
  rewrite result_of_with_handle, OpenKey_result.
  destruct (lookup_key application_key (key_subkeys (h_key uninstall_key)))
    as [k|]; [|reflexivity].
  unfold scan_key. destruct (key_readable k); [|reflexivity]. simpl.
  rewrite result_of_bind. unfold QueryInfoKey. simpl.
  destruct (key_enumerable k) eqn:He; [|reflexivity]. simpl.
  now rewrite (scan_values_result (Handle _ k)).
Qed.

Lemma fold_left_snoc {A B} (f : A -> B) (l : list A) (acc : list B) :
  fold_left (fun acc x => acc ++ [f x]) l acc = acc ++ map f l.
Proof.
  revert acc; induction l as [|x l IH]; intros acc; simpl.
  - now rewrite app_nil_r.
  - rewrite IH, <- app_assoc. reflexivity.
Qed.

(** The loop that collects the names of the subkeys. *)
Lemma enum_keys_result h :
  key_enumerable (h_key h) = true ->
  result_of
    (for_each (seq 0 (length (key_subkeys (h_key h)))) []
       (fun application_keys i =>
          name <- EnumKey h i ;; ret (application_keys ++ [name])))
  = Ok (map key_name (key_subkeys (h_key h))).
Proof.
  intros He. rewrite result_of_for_each.
  rewrite (fold_result_seq _ _ _ (fun acc k => Ok (acc ++ [key_name k]))).
  - now rewrite fold_result_pure, fold_left_snoc.
  - intros acc i k Hi. rewrite result_of_bind. unfold EnumKey.
    rewrite He, Hi. reflexivity.
Qed.

(** Scanning the subkeys by name is scanning the keys the names resolve
    to. *)
Lemma scan_names_result ks l matches :
  (forall k, In k l -> In k ks) ->
  fold_result (map key_name l) matches
    (fun matches name =>
       match lookup_key name ks with
       | Some k => scan_key name_guess matches k
       | None => Err OSError
       end)
  = fold_result
      (flat_map (fun k => option_list (lookup_key (key_name k) ks)) l)
      matches (scan_key name_guess).
Proof.
  revert matches; induction l as [|k l IH]; intros matches Hl; simpl;
    [reflexivity|].
  pose proof (lookup_key_Some k ks (Hl k (or_introl eq_refl))) as Hk.
  destruct (lookup_key (key_name k) ks) as [k'|]; [|congruence]. simpl.
  destruct (scan_key name_guess matches k'); simpl; [|reflexivity].
  apply IH. intros k'' H. apply Hl. now right.
Qed.

(** [search_hive] opens the subtree and scans the keys its subkeys'
    names resolve to. *)
Lemma search_hive_result hive sub_key :
  result_of (search_hive name_guess hive sub_key)
  = match lookup_key sub_key (key_subkeys (h_key hive)) with
    | Some uk =>
        if key_ok uk
        then fold_result (opened_keys (key_subkeys uk)) []
               (scan_key name_guess)
        else Err OSError
    | None => Err OSError
    end.
Proof.
  unfold search_hive. rewrite result_of_with_handle, OpenKey_result.
  destruct (lookup_key sub_key (key_subkeys (h_key hive))) as [uk|];
    [|reflexivity].
  unfold key_ok. destruct (key_readable uk); [|reflexivity]. simpl.
  rewrite result_of_bind. unfold QueryInfoKey. simpl.
  destruct (key_enumerable uk) eqn:He; [|reflexivity]. simpl.
  rewrite result_of_bind.
  rewrite (enum_keys_result (Handle _ uk) He). simpl.
  rewrite result_of_for_each.
  erewrite fold_result_ext.
  - apply scan_names_result. auto.
  - intros ms name _. apply (scan_key_result (Handle _ uk)).
Qed.

(** ** What a scan returns *)

Lemma repeat_snoc {A} (x : A) n : repeat x n ++ [x] = x :: repeat x n.
Proof. induction n as [|n IH]; simpl; [reflexivity | now rewrite IH]. Qed.

Lemma scan_values_ok d vals matches :
  forallb (fun rv => negb (is_display_name (rv_name rv)) || is_str (rv_data rv))
    vals = true ->
  fold_result vals matches (scan_value name_guess d)
  = Ok (matches
        ++ repeat d (length (List.filter (is_hit name_guess) vals))).
Proof.
  revert matches; induction vals as [|rv vals IH]; intros matches; simpl.
  - now rewrite app_nil_r.
  - rewrite andb_true_iff. intros [Hrv Hvals].
    unfold scan_value at 1, is_hit at 1.
    destruct (is_display_name (rv_name rv)); simpl in *.
    + destruct (rv_data rv); try discriminate. simpl.
      rewrite (IH _ Hvals). destruct (fuzzy_match name_guess s); simpl.
      * now rewrite <- app_assoc.
      * reflexivity.
    + now apply IH.
Qed.

Lemma scan_values_err d vals matches :
  forallb (fun rv => negb (is_display_name (rv_name rv)) || is_str (rv_data rv))
    vals = false ->
  fold_result vals matches (scan_value name_guess d) = Err AttributeError
  \/ fold_result vals matches (scan_value name_guess d) = Err TypeError.
Proof.
  revert matches; induction vals as [|rv vals IH]; intros matches; simpl;
    [discriminate|].
  rewrite andb_false_iff. unfold scan_value at 1 3.
  destruct (is_display_name (rv_name rv)); simpl.
  - destruct (rv_data rv); simpl; auto.
    intros [|H]; [discriminate | now apply IH].
  - intros [|H]; [discriminate | now apply IH].
Qed.

Lemma scan_key_ok matches k :
  app_key_ok k = true ->
  scan_key name_guess matches k = Ok (matches ++ contribution name_guess k).
Proof.
  unfold app_key_ok, key_ok, scan_key, display_names_typed.
  rewrite !andb_true_iff. intros [[-> ->] H].
  now apply scan_values_ok.
Qed.

Lemma scan_key_err matches k :
  app_key_ok k = false -> exists e, scan_key name_guess matches k = Err e.
Proof.
  unfold app_key_ok, key_ok, scan_key, display_names_typed.
  destruct (key_readable k); [|eauto].
  destruct (key_enumerable k); [|eauto]. simpl. intros H.
  destruct (scan_values_err (details_of k) _ matches H) as [-> | ->]; eauto.
Qed.

Lemma scan_keys_ok ks matches :
  forallb app_key_ok ks = true ->
  fold_result ks matches (scan_key name_guess)
  = Ok (matches ++ flat_map (contribution name_guess) ks).
Proof.
  revert matches; induction ks as [|k ks IH]; intros matches; simpl.
  - now rewrite app_nil_r.
  - rewrite andb_true_iff. intros [Hk Hks].
    rewrite (scan_key_ok _ _ Hk). simpl.
    now rewrite (IH _ Hks), <- app_assoc.
Qed.

Lemma scan_keys_err ks matches :
  forallb app_key_ok ks = false ->
  exists e, fold_result ks matches (scan_key name_guess) = Err e.
Proof.
  revert matches; induction ks as [|k ks IH]; intros matches; simpl;
    [discriminate|].
  destruct (app_key_ok k) eqn:Hk; simpl.
  - intros H. rewrite (scan_key_ok _ _ Hk). simpl. now apply IH.
  - intros _. destruct (scan_key_err matches k Hk) as [e ->]. simpl. eauto.
Qed.

(** A scan that returns has met only sound keys, and returns their
    contributions in order. *)
Lemma scan_keys_inv ks matches found :
  fold_result ks matches (scan_key name_guess) = Ok found ->
  forallb app_key_ok ks = true
  /\ found = matches ++ flat_map (contribution name_guess) ks.
Proof.
  intros H. destruct (forallb app_key_ok ks) eqn:Hks.
  - rewrite (scan_keys_ok _ _ Hks) in H. now injection H as <-.
  - destruct (scan_keys_err _ matches Hks) as [e He]. congruence.
Qed.

End Walker.

(** ** The top-level query *)

Section Query.

Variables (reg : registry) (name_guess : string).

Lemma scanned_keys_eq : scanned_keys reg = subtree_keys reg scanned_hive.
Proof. unfold scanned_keys. simpl. apply app_nil_r. Qed.

Lemma find_result :
  result_of (find_application_display_name_by_name reg name_guess)
  = if hklm_available reg
    then result_of (search_hive name_guess (Handle [] (hklm reg)) scanned_hive)
    else Err OSError.
Proof.
  unfold find_application_display_name_by_name.
  rewrite result_of_with_handle. unfold ConnectRegistry.
  destruct (hklm_available reg); [|reflexivity]. simpl.
  rewrite !result_of_bind.
  destruct (result_of (search_hive _ _ _)); reflexivity.
Qed.

(** A query that returns has connected, has opened the scanned subtree,
    has met only sound application keys, and returns their contributions
    in order. *)
Lemma query_inv found :
  result_of (find_application_display_name_by_name reg name_guess) = Ok found ->
  hklm_available reg = true
  /\ subtree_ok reg scanned_hive = true
  /\ forallb app_key_ok (opened_keys (scanned_keys reg)) = true
  /\ found = flat_map (contribution name_guess)
               (opened_keys (scanned_keys reg)).
Proof.
  rewrite find_result, search_hive_result, scanned_keys_eq.
  unfold subtree_ok, subtree_keys. simpl h_key.
  destruct (hklm_available reg); [|discriminate].
  destruct (lookup_key scanned_hive (key_subkeys (hklm reg))) as [uk|];
    [|discriminate].
  destruct (key_ok uk); [|discriminate].
  intros H. apply scan_keys_inv in H as [H ->]. auto.
Qed.

Lemma query_reachable :
  reachable reg ->
  result_of (find_application_display_name_by_name reg name_guess)
  = fold_result (scanned_keys reg) [] (scan_key name_guess).
Proof.
  intros (Hc & Hs & Hnd). rewrite find_result, search_hive_result, Hc.
  rewrite scanned_keys_eq in *.
  change (firstn 1 uninstall_hives) with [scanned_hive] in Hs.
  cbn [forallb] in Hs. rewrite andb_true_r in Hs.
  unfold subtree_ok, subtree_keys in *. simpl h_key.
  destruct (lookup_key scanned_hive (key_subkeys (hklm reg))) as [uk|];
    [|discriminate].
  rewrite Hs. now rewrite opened_keys_NoDup.
Qed.

(** On a healthy store the query returns every scanned key's
    contribution, in the store's order. *)
Lemma query_healthy :
  healthy reg ->
  result_of (find_application_display_name_by_name reg name_guess)
  = Ok (flat_map (contribution name_guess) (scanned_keys reg)).
Proof.
  intros [Hr Hk]. rewrite (query_reachable Hr). now apply scan_keys_ok.
Qed.

End Query.

(** ** Traces *)

Section Traces.

Variable P : event -> bool.

Lemma within_ret {A} (a : A) : within P (ret a).
Proof. reflexivity. Qed.

Lemma within_bind {A B} (m : M A) (f : A -> M B) :
  within P m -> (forall a, within P (f a)) -> within P (x <- m ;; f x).
Proof.
  unfold within. intros Hm Hf. destruct m as [[a|e] t]; simpl in *; [|exact Hm].
  specialize (Hf a). destruct (f a) as [r t']. simpl in *.
  now rewrite forallb_app, Hm, Hf.
Qed.

Lemma within_for_each {A S} (xs : list A) (s : S) (body : S -> A -> M S) :
  (forall s x, within P (body s x)) -> within P (for_each xs s body).
Proof.
  intros Hb. revert s; induction xs as [|x xs IH]; intros s; simpl.
  - apply within_ret.
  - apply within_bind; auto.
Qed.

Lemma within_with_handle {A} (acquire : M handle) (body : handle -> M A) :
  (forall p, P (EvClose p) = true) ->
  within P acquire -> (forall h, within P (body h)) ->
  within P (with_handle acquire body).
Proof.
  intros Hc Ha Hb. apply within_bind; [exact Ha|]. intros h.
  specialize (Hb h). unfold within in *. destruct (body h) as [r t].
  simpl in *. now rewrite forallb_app, Hb; simpl; rewrite Hc.
Qed.

End Traces.

Lemma within_OpenKey h sub_key : within is_handle_event (OpenKey h sub_key).
Proof.
  unfold OpenKey. destruct (lookup_key _ _) as [k|]; [|reflexivity].
  destruct (key_readable k); reflexivity.
Qed.

Lemma within_QueryInfoKey h : within is_handle_event (QueryInfoKey h).
Proof. unfold QueryInfoKey. destruct (key_enumerable _); reflexivity. Qed.

Lemma within_EnumKey h i : within is_handle_event (EnumKey h i).
Proof.
  unfold EnumKey. destruct (key_enumerable _); [|reflexivity].
  destruct (nth_error _ _); reflexivity.
Qed.

Lemma within_EnumValue h i : within is_handle_event (EnumValue h i).
Proof.
  unfold EnumValue. destruct (key_enumerable _); [|reflexivity].
  destruct (nth_error _ _); reflexivity.
Qed.

Lemma within_get_key_details h : within is_handle_event (get_key_details h).
Proof.
  unfold get_key_details. apply within_bind; [apply within_QueryInfoKey|].
  intros info. apply within_for_each. intros d i.
  apply within_bind; [apply within_EnumValue|].
  intros [[k v] ty]. apply within_ret.
Qed.

(** The walker only opens and closes keys: it never connects and never
    prints. *)
Lemma within_search_hive name_guess hive sub_key :
  within is_handle_event (search_hive name_guess hive sub_key).
Proof.
  unfold search_hive.
  apply within_with_handle; [reflexivity | apply within_OpenKey |].
  intros uk. apply within_bind; [apply within_QueryInfoKey|]. intros info.
  apply within_bind.
  { apply within_for_each. intros acc i.
    apply within_bind; [apply within_EnumKey | intros n; apply within_ret]. }
  intros names. apply within_for_each. intros ms name.
  apply within_with_handle; [reflexivity | apply within_OpenKey |].
  intros ak. apply within_bind; [apply within_QueryInfoKey|]. intros info'.
  apply within_for_each. intros ms' i.
  apply within_bind; [apply within_EnumValue|]. intros [[k v] ty].
  destruct (String.eqb _ _); [|apply within_ret].
  apply within_bind; [destruct v; reflexivity|]. intros [|];
    [|apply within_ret].
  apply within_bind; [apply within_get_key_details|].
  intros d. apply within_ret.
Qed.

Lemma with_handle_trace {A} (acquire : M handle) (body : handle -> M A)
  (h : handle) (t : list event) :
  acquire = (Ok h, t) ->
  trace_of (with_handle acquire body)
  = t ++ trace_of (body h) ++ [EvClose (h_path h)].
Proof.
  intros ->. unfold with_handle. simpl. destruct (body h) as [r t'].
  reflexivity.
Qed.

(** The trace of a query: one connection, the walker's events, and the
    release of the root handle. *)
Lemma find_trace reg name_guess :
  hklm_available reg = true ->
  exists t,
    trace_of (find_application_display_name_by_name reg name_guess)
    = EvConnect :: t ++ [EvClose []]
    /\ forallb is_handle_event t = true.
Proof.
  intros Hc. unfold find_application_display_name_by_name.
  rewrite (with_handle_trace _ _ (Handle [] (hklm reg)) [EvConnect])
    by (unfold ConnectRegistry; rewrite Hc; reflexivity).
  eexists. split; [reflexivity|].
  apply within_for_each. intros ms sub_key.
  apply within_bind; [apply within_search_hive | intros; apply within_ret].
Qed.

Lemma handle_events_no_connect t :
  forallb is_handle_event t = true -> List.filter is_connect t = [].
Proof.
  induction t as [|ev t IH]; simpl; [reflexivity|].
  rewrite andb_true_iff. intros [Hev Ht].
  destruct ev; try discriminate; simpl; auto.
Qed.

Lemma handle_events_no_print t :
  forallb is_handle_event t = true -> stdout t = [].
Proof.
  induction t as [|ev t IH]; simpl; [reflexivity|].
  rewrite andb_true_iff. intros [Hev Ht].
  destruct ev; try discriminate; simpl; auto.
Qed.

(** Whatever the store holds, a query connects to the root once when the
    root is available, and never otherwise. *)
Lemma connects_once reg name_guess :
  length (List.filter is_connect
            (trace_of (find_application_display_name_by_name reg name_guess)))
  = if hklm_available reg then 1%nat else 0%nat.
Proof.
  destruct (hklm_available reg) eqn:Hc.
  - destruct (find_trace reg name_guess Hc) as (t & -> & Ht). simpl.
    rewrite List.filter_app, (handle_events_no_connect _ Ht). reflexivity.
  - unfold find_application_display_name_by_name, with_handle,
      ConnectRegistry. rewrite Hc. reflexivity.
Qed.

Lemma find_prints_nothing reg name_guess :
  stdout (trace_of (find_application_display_name_by_name reg name_guess)) = [].
Proof.
  destruct (hklm_available reg) eqn:Hc.
  - destruct (find_trace reg name_guess Hc) as (t & -> & Ht).
    unfold stdout in *. simpl. rewrite flat_map_app.
    fold (stdout t). rewrite (handle_events_no_print _ Ht). reflexivity.
  - unfold find_application_display_name_by_name, with_handle,
      ConnectRegistry. rewrite Hc. reflexivity.
Qed.

(** ** The entry point *)

Lemma print_loop_terse (matches : list record) :
  Forall (fun m => is_Some (m !! "DisplayName")) matches ->
  for_each matches tt (fun _ m =>
    match m !! "DisplayName" with
    | Some v => emit (EvPrint (OutText v))
    | None => raise (KeyError "DisplayName")
    end)
  = (Ok tt,
     flat_map (fun m => match m !! "DisplayName" with
                        | Some v => [EvPrint (OutText v)]
                        | None => []
                        end) matches).
Proof.
  induction 1 as [|m matches [v Hm] _ IH]; [reflexivity|].
  cbn [for_each flat_map]. rewrite Hm. unfold emit, bind in *.
  cbn beta iota. rewrite IH. reflexivity.
Qed.

(** When every match has a value spelled [DisplayName], terse mode
    prints that value for each match, in the order of the matches. *)
Lemma main_terse_prints reg guess matches :
  result_of (find_application_display_name_by_name reg guess) = Ok matches ->
  Forall (fun m => is_Some (m !! "DisplayName")) matches ->
  result_of (main reg guess false) = Ok tt
  /\ Forall2 (fun line m => m !! "DisplayName" = Some line)
       (flat_map (fun l => match l with OutText v => [v] | OutJson _ => [] end)
          (stdout (trace_of (main reg guess false))))
       matches.
Proof.
  intros Hq Hall. unfold main.
  rewrite result_of_bind, (trace_of_bind_ok _ _ _ Hq), Hq. simpl bind_result.
  rewrite (print_loop_terse _ Hall). split; [reflexivity|].
  unfold stdout at 1. rewrite flat_map_app. fold (stdout (trace_of
    (find_application_display_name_by_name reg guess))).
  rewrite find_prints_nothing. simpl.
  clear Hq. induction Hall as [|m matches [v Hm] _ IH]; simpl; [constructor|].
  rewrite Hm. simpl. constructor; [exact Hm | exact IH].
Qed.

(** ** Records *)

Lemma fold_insert_lookup (vals : list reg_value) (d : record) n v :
  fold_left (fun d rv => <[rv_name rv := rv_data rv]> d) vals d !! n = Some v ->
  d !! n = Some v \/ exists rv, In rv vals /\ rv_name rv = n.
Proof.
  revert d; induction vals as [|rv vals IH]; intros d; simpl; [auto|].
  intros H. destruct (IH _ H) as [Hd | (rv' & Hin & Hn)].
  - destruct (decide (rv_name rv = n)) as [E|N].
    + right. exists rv. auto.
    + left. now rewrite lookup_insert_ne in Hd.
  - right. exists rv'. auto.
Qed.

Lemma fold_insert_has (vals : list reg_value) (d : record) n :
  is_Some (d !! n) \/ (exists rv, In rv vals /\ rv_name rv = n) ->
  is_Some (fold_left (fun d rv => <[rv_name rv := rv_data rv]> d) vals d !! n).
Proof.
  revert d; induction vals as [|rv vals IH]; intros d; simpl.
  - intros [H | (rv & [] & _)]. exact H.
  - intros H. apply IH. destruct (decide (rv_name rv = n)) as [E|N].
    + left. rewrite E, lookup_insert_eq. eauto.
    + destruct H as [H | (rv' & [-> | Hin] & Hn)].
      * left. now rewrite lookup_insert_ne.
      * contradiction.
      * right. exists rv'. auto.
Qed.

(** The names in a key's record are the names of the key's values. *)
Lemma details_of_names k n :
  is_Some (details_of k !! n)
  <-> exists rv, In rv (key_values k) /\ rv_name rv = n.
Proof.
  unfold details_of. split.
  - intros [v H]. apply fold_insert_lookup in H as [H | H]; [|exact H].
    now rewrite lookup_empty in H.
  - intros H. apply fold_insert_has. now right.
Qed.

(** ** Keys, hits and contributions *)

Lemma hit_is_named g rv : is_hit g rv = true ->
  is_display_name (rv_name rv) = true
  /\ exists s, rv_data rv = VStr s /\ fuzzy_match g s = true.
Proof.
  unfold is_hit. rewrite andb_true_iff. intros [Hn Hv]. split; [exact Hn|].
  destruct (rv_data rv); try discriminate. eauto.
Qed.

Lemma contribution_In g k m :
  In m (contribution g k) ->
  m = details_of k /\ exists rv, In rv (key_values k) /\ is_hit g rv = true.
Proof.
  unfold contribution, hits. intros H. apply repeat_spec in H as Hm.
  split; [exact Hm|].
  destruct (List.filter (is_hit g) (key_values k)) as [|rv l] eqn:E;
    [contradiction|].
  exists rv. apply filter_In. rewrite E. now left.
Qed.

Lemma contribution_unnamed g k :
  forallb (fun rv => negb (is_display_name (rv_name rv))) (key_values k) = true ->
  contribution g k = [].
Proof.
  unfold contribution, hits. intros H.
  induction (key_values k) as [|rv l IH]; simpl in *; [reflexivity|].
  apply andb_true_iff in H as [Hrv Hl]. unfold is_hit at 1.
  apply negb_true_iff in Hrv. rewrite Hrv. simpl. auto.
Qed.

Lemma name_determines_key ks k k' :
  NoDup (map key_name ks) -> In k ks -> In k' ks ->
  key_name k' = key_name k -> k' = k.
Proof.
  intros Hnd Hk Hk' E.
  pose proof (lookup_key_NoDup k ks Hnd Hk) as H1.
  pose proof (lookup_key_NoDup k' ks Hnd Hk') as H2.
  rewrite E in H2. congruence.
Qed.

Lemma drop_key_NoDup name ks :
  NoDup (map key_name ks) -> NoDup (map key_name (drop_key name ks)).
Proof.
  induction ks as [|k ks IH]; simpl; [auto|].
  intros Hnd. apply NoDup_cons in Hnd as [Hk Hnd].
  destruct (negb (String.eqb (key_name k) name)); simpl; [|auto].
  apply NoDup_cons. split; [|auto].
  intros Hin. apply Hk. apply list_elem_of_In in Hin. apply list_elem_of_In.
  apply in_map_iff in Hin as (k' & E & Hk').
  apply filter_In in Hk' as [Hk' _]. rewrite <- E. now apply in_map.
Qed.

Lemma drop_key_forallb (P : reg_key -> bool) name ks :
  forallb P ks = true -> forallb P (drop_key name ks) = true.
Proof.
  rewrite !forallb_forall. intros H k Hk.
  apply filter_In in Hk as [Hk _]. auto.
Qed.

(** Dropping a key that adds nothing leaves the contributions as they
    were. *)
Lemma drop_key_contributions g ks k :
  NoDup (map key_name ks) -> In k ks -> contribution g k = [] ->
  flat_map (contribution g) (drop_key (key_name k) ks)
  = flat_map (contribution g) ks.
Proof.
  intros Hnd Hk Hc.
  enough (G : forall l, (forall k', In k' l -> In k' ks) ->
            flat_map (contribution g) (drop_key (key_name k) l)
            = flat_map (contribution g) l) by (apply G; auto).
  induction l as [|k' l IH]; intros Hl; simpl; [reflexivity|].
  destruct (String.eqb_spec (key_name k') (key_name k)) as [E|N]; simpl.
  - rewrite (name_determines_key ks k k' Hnd Hk (Hl k' (or_introl eq_refl)) E).
    rewrite Hc. apply IH. intros k'' H. apply Hl. now right.
  - f_equal. apply IH. intros k'' H. apply Hl. now right.
Qed.

Lemma lookup_key_map (f : reg_key -> reg_key) name ks :
  (forall k, key_name (f k) = key_name k) ->
  lookup_key name (map f ks) = option_map f (lookup_key name ks).
Proof.
  intros Hf. induction ks as [|k ks IH]; simpl; [reflexivity|].
  rewrite Hf. destruct (String.eqb (key_name k) name); auto.
Qed.

(** The scanned keys of the store without an application key. *)
Lemma scanned_keys_without reg name :
  scanned_keys (without_app_key scanned_hive name reg)
  = drop_key name (scanned_keys reg).
Proof.
  rewrite !scanned_keys_eq. unfold subtree_keys, without_app_key. simpl.
  rewrite lookup_key_map.
  - destruct (lookup_key scanned_hive (key_subkeys (hklm reg))) as [uk|] eqn:E;
      [|reflexivity].
    apply lookup_key_In in E as [_ E]. simpl.
    apply String.eqb_eq in E. rewrite E. reflexivity.
  - intros k. destruct (String.eqb (key_name k) scanned_hive); reflexivity.
Qed.

Lemma subtree_ok_without reg name :
  subtree_ok (without_app_key scanned_hive name reg) scanned_hive
  = subtree_ok reg scanned_hive.
Proof.
  unfold subtree_ok, without_app_key. simpl. rewrite lookup_key_map.
  - destruct (lookup_key scanned_hive (key_subkeys (hklm reg))) as [uk|];
      [|reflexivity].
    simpl. destruct (String.eqb (key_name uk) scanned_hive); reflexivity.
  - intros k. destruct (String.eqb (key_name k) scanned_hive); reflexivity.
Qed.

(** * The claims about the walk *)

(** C3.  Every record the query returns is the record of one scanned
    child key: the results are, position by position, the records of a
    list of child keys, each of which has a value whose normalized name
    is [displayname] and whose string data, trimmed and lowercased,
    contains or is contained in the trimmed, lowercased guess. *)
Theorem results_come_from_matching_keys reg name_guess found :
  result_of (find_application_display_name_by_name reg name_guess) = Ok found ->
  exists ks,
    found = map details_of ks
    /\ Forall (fun k =>
         In k (scanned_keys reg)
         /\ exists rv s,
              In rv (key_values k)
              /\ strip (lower (rv_name rv)) = "displayname"
              /\ rv_data rv = VStr s
              /\ (Substring (lower (strip s)) (lower (strip name_guess))
                  \/ Substring (lower (strip name_guess)) (lower (strip s))))
         ks.
Proof.
  intros H. apply query_inv in H as (_ & _ & _ & ->).
  pose proof (opened_keys_In (scanned_keys reg)) as Hin.
  induction (opened_keys (scanned_keys reg)) as [|k l IH]; simpl.
  - exists []. split; [reflexivity | constructor].
  - destruct IH as (ks & -> & Hks); [intros k' Hk'; apply Hin; now right|].
    exists (repeat k (length (hits name_guess k)) ++ ks). split.
    + rewrite map_app. f_equal. unfold contribution.
      induction (length (hits name_guess k)); simpl; congruence.
    + apply Forall_app. split; [|exact Hks].
      apply List.Forall_forall. intros k' Hk'. apply repeat_spec in Hk' as E.
      subst k'. split; [apply Hin; now left|].
      unfold hits in Hk'.
      destruct (List.filter (is_hit name_guess) (key_values k)) as [|rv vs] eqn:E;
        [contradiction|].
      assert (Hrv : In rv (List.filter (is_hit name_guess) (key_values k)))
        by (rewrite E; now left).
      apply filter_In in Hrv as [Hrv Hhit].
      apply hit_is_named in Hhit as (Hn & s & Hs & Hm).
      exists rv, s. repeat split; try assumption.
      * now apply String.eqb_eq.
      * apply fuzzy_match_substring in Hm. tauto.
Qed.

Lemma results_come_from_matching_keys_witness :
  result_of (find_application_display_name_by_name fixture "notepad")
  = Ok [record_A]
  /\ exists ks,
       [record_A] = map details_of ks
       /\ Forall (fun k =>
            In k (scanned_keys fixture)
            /\ exists rv s,
                 In rv (key_values k)
                 /\ strip (lower (rv_name rv)) = "displayname"
                 /\ rv_data rv = VStr s
                 /\ (Substring (lower (strip s)) (lower (strip "notepad"))
                     \/ Substring (lower (strip "notepad")) (lower (strip s))))
            ks.
Proof.
  assert (H : result_of (find_application_display_name_by_name fixture "notepad")
              = Ok [record_A]) by (vm_compute; reflexivity).
  split; [exact H|].
  exact (results_come_from_matching_keys fixture "notepad" [record_A] H).
Defined.

(** C4, as the code has it.  On a healthy store the query with the empty
    guess returns the record of every scanned child key once per value
    of that key whose normalized name is [displayname], in the store's
    order: once for a key with one display name, never for a key with
    none. *)
Theorem empty_guess_returns_named_keys reg :
  healthy reg ->
  result_of (find_application_display_name_by_name reg "")
  = Ok (flat_map
          (fun k =>
             repeat (details_of k)
               (length (List.filter
                          (fun rv => is_display_name (rv_name rv))
                          (key_values k))))
          (scanned_keys reg)).
Proof.
  intros Hh. rewrite (query_healthy _ _ Hh). destruct Hh as [_ Hk]. f_equal.
  induction (scanned_keys reg) as [|k ks IH]; simpl in *; [reflexivity|].
  apply andb_true_iff in Hk as [Hk Hks]. rewrite (IH Hks). f_equal.
  unfold contribution, hits. do 2 f_equal.
  unfold app_key_ok, display_names_typed in Hk.
  apply andb_true_iff in Hk as [_ Hk].
  induction (key_values k) as [|rv vs IHv]; simpl in *; [reflexivity|].
  apply andb_true_iff in Hk as [Hrv Hvs]. rewrite (IHv Hvs).
  unfold is_hit. destruct (is_display_name (rv_name rv)); [|reflexivity].
  simpl in *. destruct (rv_data rv); try discriminate.
  now rewrite fuzzy_match_empty.
Qed.

Lemma empty_guess_returns_named_keys_witness :
  healthy twice_named
  /\ result_of (find_application_display_name_by_name twice_named "")
     = Ok (flat_map
             (fun k =>
                repeat (details_of k)
                  (length (List.filter
                             (fun rv => is_display_name (rv_name rv))
                             (key_values k))))
             (scanned_keys twice_named)).
Proof.
  assert (H : healthy twice_named) by store_by_computation.
  split; [exact H | exact (empty_guess_returns_named_keys twice_named H)].
Defined.

(** C4 as stated fails: a child key without a display name is a child
    key under the scanned path, and the empty guess does not return its
    record. *)
Lemma empty_guess_skips_unnamed_key :
  result_of (find_application_display_name_by_name unnamed_app "")
  <> Ok (map details_of (scanned_keys unnamed_app)).
Proof. vm_compute. discriminate. Qed.

(** C8.  On a healthy store the query returns, for each scanned child
    key in the store's order, that key's record once per value whose
    normalized name is [displayname] and whose data fuzzy-matches the
    guess: a key with several such values appears several times, and
    nothing removes the repetitions. *)
Theorem record_repeated_per_hit reg name_guess :
  healthy reg ->
  result_of (find_application_display_name_by_name reg name_guess)
  = Ok (flat_map
          (fun k =>
             repeat (details_of k)
               (length (List.filter (is_hit name_guess) (key_values k))))
          (scanned_keys reg)).
Proof. intros Hh. exact (query_healthy reg name_guess Hh). Qed.

Lemma record_repeated_per_hit_witness :
  healthy twice_named
  /\ length (List.filter (is_hit "foo") (key_values key_twice)) = 2%nat
  /\ result_of (find_application_display_name_by_name twice_named "foo")
     = Ok (flat_map
             (fun k =>
                repeat (details_of k)
                  (length (List.filter (is_hit "foo") (key_values k))))
             (scanned_keys twice_named)).
Proof.
  assert (H : healthy twice_named) by store_by_computation.
  split; [exact H | split; [vm_compute; reflexivity|]].
  exact (record_repeated_per_hit twice_named "foo" H).
Defined.

Example twice_named_foo :
  result_of (find_application_display_name_by_name twice_named "foo")
  = Ok [details_of key_twice; details_of key_twice].
Proof. vm_compute. reflexivity. Qed.

(** C10.  Whatever the guess, a scanned child key none of whose values
    has the normalized name [displayname] contributes nothing: its
    record is not among the results, and the query returns the same
    results on the store without that key. *)
Theorem unnamed_key_contributes_nothing reg name_guess found k :
  NoDup (map key_name (scanned_keys reg)) ->
  In k (scanned_keys reg) ->
  forallb (fun rv => negb (is_display_name (rv_name rv))) (key_values k) = true ->
  result_of (find_application_display_name_by_name reg name_guess) = Ok found ->
  ~ In (details_of k) found
  /\ result_of
       (find_application_display_name_by_name
          (without_app_key scanned_hive (key_name k) reg) name_guess)
     = Ok found.
Proof.
  intros Hnd Hk Hun H. apply query_inv in H as (Hc & Hs & Hok & ->).
  rewrite (opened_keys_NoDup _ Hnd) in *. split.
  - intros Hin. apply in_flat_map in Hin as (k' & Hk' & Hin).
    apply contribution_In in Hin as (E & rv & Hrv & Hhit).
    apply hit_is_named in Hhit as [Hn _].
    assert (Hsome : is_Some (details_of k !! rv_name rv)).
    { rewrite E. apply details_of_names. eauto. }
    apply details_of_names in Hsome as (rv' & Hrv' & En).
    rewrite forallb_forall in Hun. specialize (Hun rv' Hrv').
    rewrite En, Hn in Hun. discriminate.
  - rewrite query_reachable.
    + rewrite scanned_keys_without.
      rewrite (scan_keys_ok name_guess _ [] (drop_key_forallb _ _ _ Hok)).
      simpl. f_equal. apply drop_key_contributions; auto.
      now apply contribution_unnamed.
    + split; [exact Hc | split].
      * change (firstn 1 uninstall_hives) with [scanned_hive].
        cbn [forallb]. now rewrite subtree_ok_without, Hs.
      * rewrite scanned_keys_without. now apply drop_key_NoDup.
Qed.

Lemma unnamed_key_contributes_nothing_witness :
  result_of (find_application_display_name_by_name with_bare "")
  = Ok [record_A; record_B]
  /\ ~ In (details_of key_bare) [record_A; record_B]
  /\ result_of
       (find_application_display_name_by_name
          (without_app_key scanned_hive (key_name key_bare) with_bare) "")
     = Ok [record_A; record_B].
Proof.
  assert (H : result_of (find_application_display_name_by_name with_bare "")
              = Ok [record_A; record_B]) by (vm_compute; reflexivity).
  split; [exact H|].
  apply (unnamed_key_contributes_nothing with_bare ""
           [record_A; record_B] key_bare).
  - apply (bool_decide_unpack _). vm_compute. reflexivity.
  - vm_compute. auto.
  - vm_compute. reflexivity.
  - exact H.
Defined.

(** * The claims about failures *)

Lemma scan_keys_type_err name_guess ks matches :
  forallb key_ok ks = true ->
  forallb display_names_typed ks = false ->
  fold_result ks matches (scan_key name_guess) = Err AttributeError
  \/ fold_result ks matches (scan_key name_guess) = Err TypeError.
Proof.
  revert matches; induction ks as [|k ks IH]; intros matches; simpl;
    [discriminate|].
  rewrite andb_true_iff. intros [Hk Hks].
  destruct (display_names_typed k) eqn:Ht; simpl.
  - intros H. rewrite scan_key_ok by (unfold app_key_ok; now rewrite Hk, Ht).
    simpl. now apply IH.
  - intros _. unfold scan_key. unfold key_ok in Hk.
    apply andb_true_iff in Hk as [-> ->].
    destruct (scan_values_err name_guess (details_of k) _ matches Ht)
      as [-> | ->]; auto.
Qed.

Lemma main_trace_on_error reg guess verbose e :
  result_of (find_application_display_name_by_name reg guess) = Err e ->
  result_of (main reg guess verbose) = Err e
  /\ stdout (trace_of (main reg guess verbose)) = [].
Proof.
  intros H. unfold main. rewrite result_of_bind, (trace_of_bind_err _ _ _ H), H.
  split; [reflexivity | apply find_prints_nothing].
Qed.

(** C9 as stated fails: a display name stored as a number makes the walk
    raise, so the scan does not run to completion. *)
Lemma numeric_display_name_aborts :
  ~ exists found,
      result_of (find_application_display_name_by_name numeric_name "notepad")
      = Ok found.
Proof. intros [found H]. vm_compute in H. discriminate. Qed.

(** C9, as the code has it.  No value is coerced.  On a store whose keys
    can all be read, the scan runs to completion when every value whose
    normalized name is [displayname] holds a string, whatever the other
    values hold; and when some such value does not hold a string the
    walk raises [AttributeError] or [TypeError]. *)
Theorem non_string_values reg name_guess :
  reachable reg ->
  forallb key_ok (scanned_keys reg) = true ->
  (forallb display_names_typed (scanned_keys reg) = true ->
   result_of (find_application_display_name_by_name reg name_guess)
   = Ok (flat_map (contribution name_guess) (scanned_keys reg)))
  /\ (forallb display_names_typed (scanned_keys reg) = false ->
      result_of (find_application_display_name_by_name reg name_guess)
      = Err AttributeError
      \/ result_of (find_application_display_name_by_name reg name_guess)
         = Err TypeError).
Proof.
  intros Hr Hk. rewrite (query_reachable _ _ Hr). split; intros Ht.
  - apply scan_keys_ok. rewrite forallb_forall in *. intros k Hin.
    unfold app_key_ok. now rewrite (Hk k Hin), (Ht k Hin).
  - now apply scan_keys_type_err.
Qed.

Lemma non_string_values_witness :
  (reachable sized
   /\ forallb key_ok (scanned_keys sized) = true
   /\ forallb display_names_typed (scanned_keys sized) = true
   /\ result_of (find_application_display_name_by_name sized "notepad")
      = Ok (flat_map (contribution "notepad") (scanned_keys sized)))
  /\ (reachable numeric_name
      /\ forallb key_ok (scanned_keys numeric_name) = true
      /\ forallb display_names_typed (scanned_keys numeric_name) = false
      /\ (result_of (find_application_display_name_by_name numeric_name
                       "notepad")
          = Err AttributeError
          \/ result_of (find_application_display_name_by_name numeric_name
                          "notepad")
             = Err TypeError)).
Proof.
  assert (R1 : reachable sized) by store_by_computation.
  assert (R2 : reachable numeric_name) by store_by_computation.
  assert (K1 : forallb key_ok (scanned_keys sized) = true) by reflexivity.
  assert (K2 : forallb key_ok (scanned_keys numeric_name) = true)
    by reflexivity.
  assert (T1 : forallb display_names_typed (scanned_keys sized) = true)
    by reflexivity.
  assert (T2 : forallb display_names_typed (scanned_keys numeric_name) = false)
    by reflexivity.
  split.
  - repeat (split; [assumption|]).
    exact (proj1 (non_string_values sized "notepad" R1 K1) T1).
  - repeat (split; [assumption|]).
    exact (proj2 (non_string_values numeric_name "notepad" R2 K2) T2).
Defined.

Example sized_keeps_number :
  result_of (find_application_display_name_by_name sized "notepad")
  = Ok [<["EstimatedSize" := VInt 4096]>
          (<["DisplayName" := VStr "Notepad++"]> ∅)].
Proof. vm_compute. reflexivity. Qed.

(** * The claims the code breaks *)

(** C1.  The query connects once, but the slice leaves only the first of
    the two configured paths: on a machine whose match lies under the
    second path the walker finds it there, and the query neither opens
    that path nor returns the match. *)
Theorem second_hive_never_scanned :
  result_of (find_application_display_name_by_name wow64_only "notepad")
  = Ok []
  /\ result_of
       (with_handle (ConnectRegistry wow64_only) (fun hive =>
          search_hive "notepad" hive (nth 1 uninstall_hives "")))
     = Ok [record_A]
  /\ length (List.filter is_connect
               (trace_of
                  (find_application_display_name_by_name wow64_only
                     "notepad")))
     = 1%nat
  /\ ~ In (EvOpen [nth 1 uninstall_hives ""])
         (trace_of
            (find_application_display_name_by_name wow64_only "notepad")).
Proof.
  repeat split; try (vm_compute; reflexivity).
  vm_compute. intuition discriminate.
Qed.

(** C5.  A value named [displayname] matches the walker's test, and its
    record has no entry spelled [DisplayName]: terse mode raises
    [KeyError] at that match and prints no line for it. *)
Theorem terse_mode_needs_exact_spelling :
  result_of (find_application_display_name_by_name lowercase_name "foo")
  = Ok [<["displayname" := VStr "Foo"]> ∅]
  /\ result_of (main lowercase_name "foo" false)
     = Err (KeyError "DisplayName")
  /\ stdout (trace_of (main lowercase_name "foo" false)) = [].
Proof. repeat split; vm_compute; reflexivity. Qed.

(** The fixture of the specification's testable properties. *)

Example fuzzy_match_foo : fuzzy_match " Foo " "foo" = true.
Proof. reflexivity. Qed.

Example fixture_notepad :
  result_of (find_application_display_name_by_name fixture "notepad")
  = Ok [record_A].
Proof. vm_compute. reflexivity. Qed.

Example fixture_nonexistent :
  result_of (find_application_display_name_by_name fixture "zzz-nonexistent")
  = Ok [].
Proof. vm_compute. reflexivity. Qed.

Example fixture_empty_guess :
  result_of (find_application_display_name_by_name fixture "")
  = Ok [record_A; record_B].
Proof. vm_compute. reflexivity. Qed.

Example fixture_terse :
  stdout (trace_of (main fixture "" false))
  = [OutText (VStr "Notepad++"); OutText (VStr "VLC media player")].
Proof. vm_compute. reflexivity. Qed.

(** At the locked key the walk stops: the key after it is never opened,
    the handles already open are closed, and the match found before it
    is not returned. *)
Example locked_walk_stops :
  find_application_display_name_by_name locked "notepad"
  = (Err OSError,
     [ EvConnect;
       EvOpen [scanned_hive];
       EvOpen [scanned_hive; "A"];
       EvClose [scanned_hive; "A"];
       EvClose [scanned_hive];
       EvClose [] ]).
Proof. vm_compute. reflexivity. Qed.

(** * Further properties of the matcher *)

Section MatcherFacts.

Implicit Types (s t l r a b : string).

Lemma startswith_refl s : startswith s s = true.
Proof.
  induction s as [|c s IH]; simpl; [reflexivity|].
  now rewrite Ascii.eqb_refl, IH.
Qed.

Lemma str_in_refl s : str_in s s = true.
Proof. destruct s; simpl; now rewrite ?Ascii.eqb_refl, ?startswith_refl. Qed.

Lemma lower_app s t : lower (s +:+ t) = lower s +:+ lower t.
Proof.
  induction s as [|c s IH]; [reflexivity|].
  rewrite str_app_cons. simpl. now rewrite IH, str_app_cons.
Qed.

Lemma all_space_lower s : all_space (lower s) = all_space s.
Proof.
  induction s as [|c s IH]; simpl; [reflexivity|].
  now rewrite isspace_lower_char, IH.
Qed.

Lemma all_space_app s t :
  all_space (s +:+ t) = all_space s && all_space t.
Proof.
  induction s as [|c s IH]; [reflexivity|].
  rewrite str_app_cons. simpl. now rewrite IH, andb_assoc.
Qed.

Lemma str_app_assoc s t r : (s +:+ t) +:+ r = s +:+ (t +:+ r).
Proof.
  induction s as [|c s IH]; [reflexivity|]. now rewrite !str_app_cons, IH.
Qed.

(** Whitespace around a string does not change what [strip] returns. *)
Lemma strip_padded l s r :
  all_space l = true -> all_space r = true ->
  strip (l +:+ s +:+ r) = strip s.
Proof.
  intros Hl Hr. symmetry. apply Trimmed_strip.
  destruct (strip_Trimmed s) as (l0 & r0 & Hs & Hl0 & Hr0 & Hh & Ht).
  exists (l +:+ l0), (r0 +:+ r). repeat split; try assumption.
  - rewrite Hs at 1. now rewrite !str_app_assoc.
  - now rewrite all_space_app, Hl, Hl0.
  - now rewrite all_space_app, Hr0, Hr.
Qed.

Lemma lower_char_idem c : lower_char (lower_char c) = lower_char c.
Proof. destruct c as [[] [] [] [] [] [] [] []]; vm_compute; reflexivity. Qed.

Lemma lower_idem s : lower (lower s) = lower s.
Proof.
  induction s as [|c s IH]; simpl; [reflexivity|].
  now rewrite lower_char_idem, IH.
Qed.

Lemma strip_blank s : all_space s = true -> strip s = "".
Proof.
  intros Hs. unfold strip.
  now rewrite <- (str_app_nil_r s), (lstrip_all_space _ "" Hs).
Qed.

End MatcherFacts.

(** X1.  Every string matches itself. *)
Theorem fuzzy_match_reflexive (a : string) : fuzzy_match a a = true.
Proof. unfold fuzzy_match. cbv zeta. now rewrite str_in_refl. Qed.

(** X2.  A string of whitespace only, on either side, matches every
    string. *)
Theorem fuzzy_match_blank (a b : string) :
  all_space a = true ->
  fuzzy_match a b = true /\ fuzzy_match b a = true.
Proof.
  intros Ha.
  assert (E : strip (lower a) = "")
    by (apply strip_blank; now rewrite all_space_lower).
  unfold fuzzy_match. cbv zeta. rewrite E, str_in_empty.
  split; [reflexivity | apply orb_true_r].
Qed.

Lemma fuzzy_match_blank_witness :
  all_space "   " = true
  /\ fuzzy_match "   " "VLC" = true /\ fuzzy_match "VLC" "   " = true.
Proof.
  split; [reflexivity|]. exact (fuzzy_match_blank "   " "VLC" eq_refl).
Defined.

(** X3.  The matcher ignores case and surrounding whitespace: padding an
    argument with whitespace, or lowercasing it, does not change the
    answer. *)
Theorem fuzzy_match_insensitive (l a r b : string) :
  all_space l = true -> all_space r = true ->
  fuzzy_match (l +:+ a +:+ r) b = fuzzy_match a b
  /\ fuzzy_match (lower a) b = fuzzy_match a b.
Proof.
  intros Hl Hr. unfold fuzzy_match. cbv zeta. split.
  - rewrite !lower_app, strip_padded; rewrite ?all_space_lower; auto.
  - now rewrite lower_idem.
Qed.

Lemma fuzzy_match_insensitive_witness :
  all_space "  " = true /\ all_space " " = true
  /\ fuzzy_match ("  " +:+ "NotePad" +:+ " ") "Notepad++"
     = fuzzy_match "NotePad" "Notepad++"
  /\ fuzzy_match (lower "NotePad") "Notepad++"
     = fuzzy_match "NotePad" "Notepad++".
Proof.
  split; [reflexivity | split; [reflexivity|]].
  exact (fuzzy_match_insensitive "  " "NotePad" " " "Notepad++"
           eq_refl eq_refl).
Defined.

(** * Further properties of the attribute flattener *)

Lemma fold_insert_last (vals : list reg_value) (d0 : record) n v :
  fold_left (fun d rv => <[rv_name rv := rv_data rv]> d) vals d0 !! n = Some v
  <-> (exists pre rv post,
         vals = pre ++ rv :: post /\ rv_name rv = n /\ rv_data rv = v
         /\ Forall (fun rv' => rv_name rv' <> n) post)
      \/ (d0 !! n = Some v /\ Forall (fun rv' => rv_name rv' <> n) vals).
Proof.
  revert d0; induction vals as [|rv0 vals IH]; intros d0; simpl.
  - split.
    + intros H. right. split; [exact H | constructor].
    + intros [(pre & rv & post & E & _) | [H _]]; [|exact H].
      destruct pre; discriminate.
  - rewrite IH. split.
    + intros [(pre & rv & post & -> & Hn & Hv & Hp) | [H Hp]].
      * left. exists (rv0 :: pre), rv, post. auto.
      * destruct (decide (rv_name rv0 = n)) as [E|N].
        -- rewrite E, lookup_insert_eq in H. injection H as <-.
           left. exists [], rv0, vals. auto.
        -- rewrite lookup_insert_ne in H by exact N.
           right. split; [exact H | now constructor].
    + intros [(pre & rv & post & E & Hn & Hv & Hp) | [H Hp]].
      * destruct pre as [|x pre]; simpl in E; injection E as -> ->.
        -- right. split; [|exact Hp]. now rewrite Hn, lookup_insert_eq, Hv.
        -- left. exists pre, rv, post. auto.
      * apply Forall_cons in Hp as [N Hp]. right.
        split; [now rewrite lookup_insert_ne | exact Hp].
Qed.

(** X4.  [get_key_details] on a key that can be enumerated returns a
    record in which a name is bound to the data of the last value of
    that name in enumeration order, and only the names of the key's
    values are bound. *)
Theorem get_key_details_last_wins (h : handle) :
  key_enumerable (h_key h) = true ->
  exists d,
    result_of (get_key_details h) = Ok d
    /\ forall n v,
         d !! n = Some v
         <-> exists pre rv post,
               key_values (h_key h) = pre ++ rv :: post
               /\ rv_name rv = n /\ rv_data rv = v
               /\ Forall (fun rv' => rv_name rv' <> n) post.
Proof.
  intros He. exists (details_of (h_key h)).
  split; [now apply get_key_details_result|].
  intros n v. unfold details_of. rewrite fold_insert_last. split.
  - intros [H | [H _]]; [exact H | now rewrite lookup_empty in H].
  - auto.
Qed.

Lemma get_key_details_last_wins_witness :
  key_enumerable (h_key (Handle [] key_renamed)) = true
  /\ exists d,
       result_of (get_key_details (Handle [] key_renamed)) = Ok d
       /\ forall n v,
            d !! n = Some v
            <-> exists pre rv post,
                  key_values (h_key (Handle [] key_renamed))
                  = pre ++ rv :: post
                  /\ rv_name rv = n /\ rv_data rv = v
                  /\ Forall (fun rv' => rv_name rv' <> n) post.
Proof.
  split; [reflexivity|].
  exact (get_key_details_last_wins (Handle [] key_renamed) eq_refl).
Defined.

Example key_renamed_details :
  result_of (get_key_details (Handle [] key_renamed))
  = Ok (<["Version" := VStr "1"]> (<["Name" := VStr "new"]> ∅)).
Proof. vm_compute. reflexivity. Qed.

Lemma fold_insert_size (vals : list reg_value) (d0 : record) :
  NoDup (map rv_name vals) ->
  (forall rv, In rv vals -> d0 !! rv_name rv = None) ->
  size (fold_left (fun d rv => <[rv_name rv := rv_data rv]> d) vals d0)
  = (size d0 + length vals)%nat.
Proof.
  revert d0; induction vals as [|rv0 vals IH]; intros d0 Hnd Hd0; simpl.
  - lia.
  - apply NoDup_cons in Hnd as [Hrv0 Hnd]. rewrite IH.
    + rewrite map_size_insert_None by (apply Hd0; now left). lia.
    + exact Hnd.
    + intros rv Hrv. rewrite lookup_insert_ne; [apply Hd0; now right|].
      intros E. apply Hrv0. rewrite E. apply list_elem_of_In.
      now apply in_map.
Qed.

(** X5.  When the values of a key have distinct names, as the registry
    keeps them, [get_key_details] loses nothing: the record has as many
    entries as the key has values, and binds every value's name to that
    value's data. *)
Theorem get_key_details_distinct (h : handle) :
  key_enumerable (h_key h) = true ->
  NoDup (map rv_name (key_values (h_key h))) ->
  exists d,
    result_of (get_key_details h) = Ok d
    /\ size d = length (key_values (h_key h))
    /\ forall rv, In rv (key_values (h_key h)) ->
                  d !! rv_name rv = Some (rv_data rv).
Proof.
  intros He Hnd. exists (details_of (h_key h)).
  split; [now apply get_key_details_result|]. unfold details_of. split.
  - rewrite fold_insert_size; [now rewrite map_size_empty | exact Hnd |].
    intros rv _. apply lookup_empty.
  - intros rv Hrv. apply fold_insert_last. left.
    apply in_split in Hrv as (pre & post & E).
    exists pre, rv, post. repeat split; [exact E|].
    rewrite E, map_app in Hnd. apply NoDup_app in Hnd as (_ & _ & Hnd).
    simpl in Hnd. apply NoDup_cons in Hnd as [Hrv _].
    apply List.Forall_forall. intros rv' Hrv' En. apply Hrv.
    rewrite <- En. apply list_elem_of_In. now apply in_map.
Qed.

Lemma get_key_details_distinct_witness :
  key_enumerable (h_key (Handle [] key_A)) = true
  /\ NoDup (map rv_name (key_values (h_key (Handle [] key_A))))
  /\ exists d,
       result_of (get_key_details (Handle [] key_A)) = Ok d
       /\ size d = length (key_values (h_key (Handle [] key_A)))
       /\ forall rv, In rv (key_values (h_key (Handle [] key_A))) ->
                     d !! rv_name rv = Some (rv_data rv).
Proof.
  assert (Hnd : NoDup (map rv_name (key_values (h_key (Handle [] key_A)))))
    by (apply (bool_decide_unpack _); vm_compute; reflexivity).
  split; [reflexivity | split; [exact Hnd|]].
  exact (get_key_details_distinct (Handle [] key_A) eq_refl Hnd).
Defined.

(** * Handles *)

Section Handles.

Variable limit : nat.

Lemma replay_app t1 t2 st :
  replay limit (t1 ++ t2) st
  = match replay limit t1 st with
    | Some st' => replay limit t2 st'
    | None => None
    end.
Proof.
  revert st; induction t1 as [|ev t1 IH]; intros st; simpl; [reflexivity|].
  destruct ev; simpl.
  - destruct (Nat.ltb (length st) limit); auto.
  - destruct (Nat.ltb (length st) limit); auto.
  - destruct st as [|q st]; [reflexivity|].
    destruct (bool_decide (path = q)); auto.
  - auto.
Qed.

Lemma fits_nil n : fits limit n [].
Proof. intros st _. reflexivity. Qed.

Lemma fits_mono n m t : (n <= m)%nat -> fits limit n t -> fits limit m t.
Proof. intros Hnm Ht st Hst. apply Ht. lia. Qed.

Lemma fits_app n t1 t2 :
  fits limit n t1 -> fits limit n t2 -> fits limit n (t1 ++ t2).
Proof.
  intros H1 H2 st Hst. now rewrite replay_app, (H1 st Hst), (H2 st Hst).
Qed.

Lemma fits_print n line : fits limit n [EvPrint line].
Proof. intros st _. reflexivity. Qed.

(** A trace that fits, between the opening and the closing of one more
    handle. *)
Lemma fits_bracket n p t :
  fits limit n t -> fits limit (S n) (EvOpen p :: t ++ [EvClose p]).
Proof.
  intros Ht st Hst. cbn [replay].
  destruct (Nat.ltb_spec (length st) limit) as [_|Hge]; [|lia].
  rewrite replay_app, (Ht (p :: st)) by (simpl; lia).
  cbn [replay]. now rewrite bool_decide_eq_true_2.
Qed.

Lemma fits_connect n t :
  fits limit n t -> fits limit (S n) (EvConnect :: t ++ [EvClose []]).
Proof.
  intros Ht st Hst. cbn [replay].
  destruct (Nat.ltb_spec (length st) limit) as [_|Hge]; [|lia].
  rewrite replay_app, (Ht ([] :: st)) by (simpl; lia).
  cbn [replay]. now rewrite bool_decide_eq_true_2.
Qed.

Lemma fits_bind {A B} n (m : M A) (f : A -> M B) :
  fits limit n (trace_of m) -> (forall a, fits limit n (trace_of (f a))) ->
  fits limit n (trace_of (x <- m ;; f x)).
Proof.
  intros Hm Hf. destruct m as [[a|e] t]; simpl in *; [|exact Hm].
  specialize (Hf a). destruct (f a) as [r t']. simpl in *.
  now apply fits_app.
Qed.

Lemma fits_for_each {A S} n (xs : list A) (s : S) (body : S -> A -> M S) :
  (forall s x, fits limit n (trace_of (body s x))) ->
  fits limit n (trace_of (for_each xs s body)).
Proof.
  intros Hb. revert s; induction xs as [|x xs IH]; intros s; simpl.
  - apply fits_nil.
  - apply fits_bind; auto.
Qed.

(** A [with OpenKey(...)] block holds one handle more than its body, and
    none when the key cannot be opened. *)
Lemma fits_with_OpenKey {A} n h sub_key (body : handle -> M A) :
  (forall h', fits limit n (trace_of (body h'))) ->
  fits limit (S n) (trace_of (with_handle (OpenKey h sub_key) body)).
Proof.
  intros Hb.
  destruct (lookup_key sub_key (key_subkeys (h_key h))) as [k|] eqn:El.
  - destruct (key_readable k) eqn:Er.
    + rewrite (with_handle_trace _ _ (Handle (h_path h ++ [sub_key]) k)
                 [EvOpen (h_path h ++ [sub_key])])
        by (unfold OpenKey; rewrite El, Er; reflexivity).
      apply (fits_bracket n (h_path h ++ [sub_key])). apply Hb.
    + unfold with_handle, OpenKey. rewrite El, Er. apply fits_nil.
  - unfold with_handle, OpenKey. rewrite El. apply fits_nil.
Qed.

Lemma fits_QueryInfoKey n h : fits limit n (trace_of (QueryInfoKey h)).
Proof. unfold QueryInfoKey. destruct (key_enumerable _); apply fits_nil. Qed.

Lemma fits_EnumKey n h i : fits limit n (trace_of (EnumKey h i)).
Proof.
  unfold EnumKey. destruct (key_enumerable _); [|apply fits_nil].
  destruct (nth_error _ _); apply fits_nil.
Qed.

Lemma fits_EnumValue n h i : fits limit n (trace_of (EnumValue h i)).
Proof.
  unfold EnumValue. destruct (key_enumerable _); [|apply fits_nil].
  destruct (nth_error _ _); apply fits_nil.
Qed.

Lemma fits_get_key_details n h : fits limit n (trace_of (get_key_details h)).
Proof.
  unfold get_key_details. apply fits_bind; [apply fits_QueryInfoKey|].
  intros info. apply fits_for_each. intros d i.
  apply fits_bind; [apply fits_EnumValue|].
  intros [[k v] ty]. apply fits_nil.
Qed.

(** The walker holds at most two handles: the uninstall key and one
    application key. *)
Lemma fits_search_hive name_guess hive sub_key :
  fits limit 2 (trace_of (search_hive name_guess hive sub_key)).
Proof.
  unfold search_hive. apply fits_with_OpenKey. intros uk.
  apply fits_bind; [apply fits_QueryInfoKey|]. intros info.
  apply fits_bind.
  { apply fits_for_each. intros acc i.
    apply fits_bind; [apply fits_EnumKey | intros n; apply fits_nil]. }
  intros names. apply fits_for_each. intros ms name.
  apply fits_with_OpenKey. intros ak.
  apply fits_bind; [apply fits_QueryInfoKey|]. intros info'.
  apply fits_for_each. intros ms' i.
  apply fits_bind; [apply fits_EnumValue|]. intros [[k v] ty].
  destruct (String.eqb _ _); [|apply fits_nil].
  apply fits_bind; [destruct v; apply fits_nil|]. intros [|];
    [|apply fits_nil].
  apply fits_bind; [apply fits_get_key_details|].
  intros d. apply fits_nil.
Qed.

Lemma fits_find reg name_guess :
  fits limit 3
    (trace_of (find_application_display_name_by_name reg name_guess)).
Proof.
  unfold find_application_display_name_by_name.
  destruct (hklm_available reg) eqn:Hc.
  - rewrite (with_handle_trace _ _ (Handle [] (hklm reg)) [EvConnect])
      by (unfold ConnectRegistry; rewrite Hc; reflexivity).
    apply (fits_connect 2). apply fits_for_each. intros ms sub_key.
    apply fits_bind; [apply fits_search_hive | intros; apply fits_nil].
  - unfold with_handle, ConnectRegistry. rewrite Hc. apply fits_nil.
Qed.

Lemma fits_main reg guess verbose :
  fits limit 3 (trace_of (main reg guess verbose)).
Proof.
  unfold main. apply fits_bind; [apply fits_find|]. intros matches.
  apply fits_for_each. intros [] m. destruct verbose.
  - apply fits_bind; [|intros document; apply fits_print].
    unfold json_dumps. destruct (forallb _ _); apply fits_nil.
  - destruct (m !! "DisplayName"); [apply fits_print | apply fits_nil].
Qed.

End Handles.

(** X6.  Whatever the store holds and however the run ends, by return or
    by exception, in either output mode: every handle the program opens
    is closed, the handle opened last being closed first, no handle is
    left open at the end, and never more than three are open at once
    (the root, the uninstall key and one application key). *)
Theorem handles_are_released reg guess verbose :
  replay 3 (trace_of (main reg guess verbose)) [] = Some [].
Proof. apply (fits_main 3 reg guess verbose []). simpl. lia. Qed.

Example two_handles_do_not_suffice :
  replay 2 (trace_of (main fixture "" false)) [] = None.
Proof. vm_compute. reflexivity. Qed.

(** * The trace of a walk that meets no failure *)

Lemma silent_bind {A B} (m : M A) (f : A -> M B) :
  trace_of m = [] -> (forall a, trace_of (f a) = []) ->
  trace_of (x <- m ;; f x) = [].
Proof.
  destruct m as [[a|e] t]; simpl; intros -> Hf; [|reflexivity].
  specialize (Hf a). destruct (f a) as [r t']. simpl in *. now subst.
Qed.

Lemma silent_for_each {A S} (xs : list A) (s : S) (body : S -> A -> M S) :
  (forall s x, trace_of (body s x) = []) -> trace_of (for_each xs s body) = [].
Proof.
  intros Hb. revert s; induction xs as [|x xs IH]; intros s; simpl;
    [reflexivity|].
  apply silent_bind; auto.
Qed.

Lemma silent_QueryInfoKey h : trace_of (QueryInfoKey h) = [].
Proof. unfold QueryInfoKey. now destruct (key_enumerable _). Qed.

Lemma silent_EnumKey h i : trace_of (EnumKey h i) = [].
Proof.
  unfold EnumKey. destruct (key_enumerable _); [|reflexivity].
  now destruct (nth_error _ _).
Qed.

Lemma silent_EnumValue h i : trace_of (EnumValue h i) = [].
Proof.
  unfold EnumValue. destruct (key_enumerable _); [|reflexivity].
  now destruct (nth_error _ _).
Qed.

Lemma silent_get_key_details h : trace_of (get_key_details h) = [].
Proof.
  unfold get_key_details. apply silent_bind; [apply silent_QueryInfoKey|].
  intros info. apply silent_for_each. intros d i.
  apply silent_bind; [apply silent_EnumValue|]. now intros [[k v] ty].
Qed.

(** A loop that runs to its end leaves the traces of its iterations, in
    order. *)
Lemma for_each_trace {A S} (xs : list A) (s s' : S) (body : S -> A -> M S)
  (tr : A -> list event) :
  result_of (for_each xs s body) = Ok s' ->
  (forall s x, In x xs -> trace_of (body s x) = tr x) ->
  trace_of (for_each xs s body) = flat_map tr xs.
Proof.
  revert s; induction xs as [|x xs IH]; intros s Hr Ht; simpl;
    [reflexivity|].
  simpl in Hr. rewrite result_of_bind in Hr.
  destruct (result_of (body s x)) as [s1|e] eqn:E; [|discriminate].
  rewrite (trace_of_bind_ok _ _ _ E), (Ht s x (or_introl eq_refl)).
  f_equal. apply IH; [exact Hr|]. intros s2 y Hy. apply Ht. now right.
Qed.

(** Opening and scanning one readable application key leaves its opening
    and its closing, whatever the scan returns. *)
Lemma scan_key_trace name_guess uninstall_key k matches :
  lookup_key (key_name k) (key_subkeys (h_key uninstall_key)) = Some k ->
  key_readable k = true ->
  trace_of
    (with_handle (OpenKey uninstall_key (key_name k))
       (fun application_info_key =>
          info <- QueryInfoKey application_info_key ;;
          let num_of_values := snd info in
          for_each (seq 0 num_of_values) matches (fun matches i =>
            values <- EnumValue application_info_key i ;;
            let '(k, v, _) := values in
            if String.eqb (strip (lower k)) "displayname" then
              hit <- fuzzy_match_value name_guess v ;;
              if hit : bool then
                details <- get_key_details application_info_key ;;
                ret (matches ++ [details])
              else ret matches
            else ret matches)))
  = [ EvOpen (h_path uninstall_key ++ [key_name k]);
      EvClose (h_path uninstall_key ++ [key_name k]) ].
Proof.
  intros El Er.
  rewrite (with_handle_trace _ _
             (Handle (h_path uninstall_key ++ [key_name k]) k)
             [EvOpen (h_path uninstall_key ++ [key_name k])])
    by (unfold OpenKey; rewrite El, Er; reflexivity).
  rewrite silent_bind; [reflexivity | apply silent_QueryInfoKey |].
  intros info. apply silent_for_each. intros ms i.
  apply silent_bind; [apply silent_EnumValue|]. intros [[n v] ty].
  destruct (String.eqb _ _); [|reflexivity].
  apply silent_bind; [now destruct v|]. intros [|]; [|reflexivity].
  apply silent_bind; [apply silent_get_key_details | reflexivity].
Qed.

Lemma search_hive_trace name_guess hive uk found :
  lookup_key (key_name uk) (key_subkeys (h_key hive)) = Some uk ->
  NoDup (map key_name (key_subkeys uk)) ->
  forallb key_readable (key_subkeys uk) = true ->
  result_of (search_hive name_guess hive (key_name uk)) = Ok found ->
  trace_of (search_hive name_guess hive (key_name uk))
  = EvOpen (h_path hive ++ [key_name uk])
    :: flat_map
         (fun k =>
            [ EvOpen ((h_path hive ++ [key_name uk]) ++ [key_name k]);
              EvClose ((h_path hive ++ [key_name uk]) ++ [key_name k]) ])
         (key_subkeys uk)
    ++ [EvClose (h_path hive ++ [key_name uk])].
Proof.
  intros El Hnd Hread Hres.
  pose proof Hres as Hok. rewrite search_hive_result, El in Hok.
  destruct (key_ok uk) eqn:Huk; [|discriminate].
  unfold key_ok in Huk. apply andb_true_iff in Huk as [Hr He].
  unfold search_hive in *.
  set (h := Handle (h_path hive ++ [key_name uk]) uk).
  assert (Ha : OpenKey hive (key_name uk) = (Ok h, [EvOpen (h_path h)]))
    by (unfold OpenKey; rewrite El, Hr; reflexivity).
  rewrite result_of_with_handle, Ha in Hres. simpl bind_result in Hres.
  rewrite (with_handle_trace _ _ h [EvOpen (h_path h)] Ha).
  simpl. do 2 f_equal.
  assert (Hq : result_of (QueryInfoKey h)
               = Ok (length (key_subkeys uk), length (key_values uk)))
    by (unfold QueryInfoKey; simpl; now rewrite He).
  rewrite result_of_bind, Hq in Hres. simpl bind_result in Hres.
  rewrite (trace_of_bind_ok _ _ _ Hq), silent_QueryInfoKey. simpl.
  pose proof (enum_keys_result h He) as Hn. simpl h_key in Hn.
  rewrite result_of_bind, Hn in Hres. simpl bind_result in Hres.
  rewrite (trace_of_bind_ok _ _ _ Hn).
  rewrite silent_for_each
    by (intros acc i; apply silent_bind;
        [apply silent_EnumKey | reflexivity]).
  simpl.
  rewrite (for_each_trace _ _ _ _
             (fun name => [EvOpen (h_path h ++ [name]);
                           EvClose (h_path h ++ [name])]) Hres).
  - now rewrite flat_map_concat_map, map_map, <- flat_map_concat_map.
  - intros ms name Hin. apply in_map_iff in Hin as (k & <- & Hk).
    apply (scan_key_trace name_guess h k ms).
    + now apply lookup_key_NoDup.
    + rewrite forallb_forall in Hread. now apply Hread.
Qed.

Lemma trace_of_bind_ret {A B} (m : M A) (f : A -> B) :
  trace_of (x <- m ;; ret (f x)) = trace_of m.
Proof. destruct m as [[a|e] t]; simpl; [apply app_nil_r | reflexivity]. Qed.

(** X7.  A query that returns has connected once, opened the scanned
    uninstall key, then opened and closed each of its (distinctly named)
    child keys in the store's order, one at a time, and closed the
    uninstall key and the root at the end; it has done nothing else. *)
Theorem returning_query_trace reg name_guess found :
  NoDup (map key_name (scanned_keys reg)) ->
  result_of (find_application_display_name_by_name reg name_guess) = Ok found ->
  trace_of (find_application_display_name_by_name reg name_guess)
  = EvConnect
    :: EvOpen [scanned_hive]
    :: flat_map
         (fun k =>
            [ EvOpen [scanned_hive; key_name k];
              EvClose [scanned_hive; key_name k] ])
         (scanned_keys reg)
    ++ [EvClose [scanned_hive]; EvClose []].
Proof.
  intros Hnd Hres.
  pose proof (query_inv _ _ _ Hres) as (Hc & Hs & Hok & _).
  rewrite (opened_keys_NoDup _ Hnd) in Hok.
  rewrite find_result, Hc in Hres.
  rewrite scanned_keys_eq in *. unfold subtree_ok, subtree_keys in *.
  destruct (lookup_key scanned_hive (key_subkeys (hklm reg))) as [uk|] eqn:El;
    [|discriminate].
  pose proof (lookup_key_In _ _ _ El) as [_ En].
  unfold find_application_display_name_by_name.
  rewrite (with_handle_trace _ _ (Handle [] (hklm reg)) [EvConnect])
    by (unfold ConnectRegistry; rewrite Hc; reflexivity).
  change (firstn 1 uninstall_hives) with [scanned_hive]. cbn [for_each].
  rewrite trace_of_bind_ret, trace_of_bind_ret.
  rewrite <- En in *.
  rewrite (search_hive_trace name_guess (Handle [] (hklm reg)) uk found);
    try assumption.
  - simpl. rewrite <- app_assoc. reflexivity.
  - rewrite forallb_forall in *. intros k Hk. specialize (Hok k Hk).
    unfold app_key_ok, key_ok in Hok.
    now apply andb_true_iff in Hok as [[Hr _]%andb_true_iff _].
Qed.

Lemma returning_query_trace_witness :
  NoDup (map key_name (scanned_keys fixture))
  /\ result_of (find_application_display_name_by_name fixture "notepad")
     = Ok [record_A]
  /\ trace_of (find_application_display_name_by_name fixture "notepad")
     = EvConnect
       :: EvOpen [scanned_hive]
       :: flat_map
            (fun k =>
               [ EvOpen [scanned_hive; key_name k];
                 EvClose [scanned_hive; key_name k] ])
            (scanned_keys fixture)
       ++ [EvClose [scanned_hive]; EvClose []].
Proof.
  assert (Hnd : NoDup (map key_name (scanned_keys fixture)))
    by (apply (bool_decide_unpack _); vm_compute; reflexivity).
  assert (Hres : result_of
                   (find_application_display_name_by_name fixture "notepad")
                 = Ok [record_A]) by (vm_compute; reflexivity).
  split; [exact Hnd | split; [exact Hres|]].
  exact (returning_query_trace fixture "notepad" [record_A] Hnd Hres).
Defined.

(** * Further properties of the query *)

(** X8.  When the root is available and the scanned uninstall key is
    missing or cannot be opened, the query raises [OSError] having
    opened nothing below the root, and the root handle is closed. *)
Theorem missing_uninstall_key reg name_guess :
  hklm_available reg = true ->
  (forall uk,
     lookup_key scanned_hive (key_subkeys (hklm reg)) = Some uk ->
     key_readable uk = false) ->
  find_application_display_name_by_name reg name_guess
  = (Err OSError, [EvConnect; EvClose []]).
Proof.
  intros Hc Hmiss.
  unfold find_application_display_name_by_name, with_handle, ConnectRegistry.
  rewrite Hc. change (firstn 1 uninstall_hives) with [scanned_hive].
  cbn [for_each bind emit ret].
  unfold search_hive, with_handle, OpenKey. cbn [h_key].
  destruct (lookup_key scanned_hive (key_subkeys (hklm reg))) as [uk|];
    [rewrite (Hmiss uk eq_refl)|]; reflexivity.
Qed.

Lemma missing_uninstall_key_witness :
  hklm_available (Registry true (app_key "HKEY_LOCAL_MACHINE" [])) = true
  /\ (forall uk,
        lookup_key scanned_hive
          (key_subkeys (hklm (Registry true (app_key "HKEY_LOCAL_MACHINE" []))))
        = Some uk ->
        key_readable uk = false)
  /\ find_application_display_name_by_name
       (Registry true (app_key "HKEY_LOCAL_MACHINE" [])) "notepad"
     = (Err OSError, [EvConnect; EvClose []]).
Proof.
  assert (H : forall uk,
            lookup_key scanned_hive
              (key_subkeys
                 (hklm (Registry true (app_key "HKEY_LOCAL_MACHINE" []))))
            = Some uk ->
            key_readable uk = false) by (intros uk E; discriminate E).
  split; [reflexivity | split; [exact H|]].
  exact (missing_uninstall_key
           (Registry true (app_key "HKEY_LOCAL_MACHINE" [])) "notepad"
           eq_refl H).
Defined.

Lemma query_opened reg name_guess :
  hklm_available reg = true ->
  subtree_ok reg scanned_hive = true ->
  forallb app_key_ok (opened_keys (scanned_keys reg)) = true ->
  result_of (find_application_display_name_by_name reg name_guess)
  = Ok (flat_map (contribution name_guess) (opened_keys (scanned_keys reg))).
Proof.
  intros Hc Hs Hok. rewrite find_result, search_hive_result, Hc.
  rewrite scanned_keys_eq in *. unfold subtree_ok, subtree_keys in *.
  simpl h_key.
  destruct (lookup_key scanned_hive (key_subkeys (hklm reg))) as [uk|];
    [|discriminate].
  rewrite Hs. now apply scan_keys_ok.
Qed.

Lemma repeat_sublist {A} (x : A) n m :
  (n <= m)%nat -> sublist (repeat x n) (repeat x m).
Proof.
  revert n; induction m as [|m IH]; intros [|n] H; simpl; try lia.
  - constructor.
  - apply sublist_nil_l.
  - apply sublist_skip, IH. lia.
Qed.

Lemma hits_empty_guess name_guess vals :
  (length (List.filter (is_hit name_guess) vals)
   <= length (List.filter (is_hit "") vals))%nat.
Proof.
  induction vals as [|rv vals IH]; simpl; [lia|].
  assert (Himp : is_hit name_guess rv = true -> is_hit "" rv = true).
  { unfold is_hit. destruct (is_display_name (rv_name rv)); simpl; [|auto].
    destruct (rv_data rv); auto. now rewrite fuzzy_match_empty. }
  destruct (is_hit name_guess rv), (is_hit "" rv); simpl; try lia;
    specialize (Himp eq_refl); discriminate.
Qed.

(** X9.  Whatever a guess finds, the empty guess finds too: when the
    query returns for a guess it returns for the empty guess as well,
    and the results for the guess are a subsequence, in the same order,
    of the results for the empty guess. *)
Theorem empty_guess_finds_most reg name_guess found :
  result_of (find_application_display_name_by_name reg name_guess) = Ok found ->
  exists every,
    result_of (find_application_display_name_by_name reg "") = Ok every
    /\ sublist found every.
Proof.
  intros H. apply query_inv in H as (Hc & Hs & Hok & ->).
  eexists. split; [now apply query_opened|].
  induction (opened_keys (scanned_keys reg)) as [|k ks IH]; simpl;
    [constructor|].
  simpl in Hok. apply andb_true_iff in Hok as [_ Hks].
  apply sublist_app; [|auto].
  apply repeat_sublist, hits_empty_guess.
Qed.

Lemma empty_guess_finds_most_witness :
  result_of (find_application_display_name_by_name fixture "vlc")
  = Ok [record_B]
  /\ exists every,
       result_of (find_application_display_name_by_name fixture "") = Ok every
       /\ sublist [record_B] every.
Proof.
  assert (H : result_of (find_application_display_name_by_name fixture "vlc")
              = Ok [record_B]) by (vm_compute; reflexivity).
  split; [exact H | exact (empty_guess_finds_most fixture "vlc" [record_B] H)].
Defined.

(** ** The guess and the store, as far as the program reads them *)

Lemma bind_ext {A B} (m : M A) (f g : A -> M B) :
  (forall a, f a = g a) -> (x <- m ;; f x) = (x <- m ;; g x).
Proof. intros H. destruct m as [[a|e] t]; simpl; now rewrite ?H. Qed.

Lemma for_each_ext {A S} (xs : list A) (s : S) (f g : S -> A -> M S) :
  (forall s x, f s x = g s x) -> for_each xs s f = for_each xs s g.
Proof.
  intros H. revert s; induction xs as [|x xs IH]; intros s; simpl;
    [reflexivity|].
  rewrite H. now apply bind_ext.
Qed.

Lemma with_handle_ext {A} (acquire : M handle) (f g : handle -> M A) :
  (forall h, f h = g h) -> with_handle acquire f = with_handle acquire g.
Proof. intros H. unfold with_handle. apply bind_ext. intros h. now rewrite H. Qed.

Lemma search_hive_guess g g' hive sub_key :
  strip (lower g) = strip (lower g') ->
  search_hive g hive sub_key = search_hive g' hive sub_key.
Proof.
  intros Hg. unfold search_hive. cbv zeta.
  apply with_handle_ext; intros uk. apply bind_ext; intros info.
  apply bind_ext; intros names. apply for_each_ext; intros ms name.
  apply with_handle_ext; intros ak. apply bind_ext; intros info'.
  apply for_each_ext; intros ms' i. apply bind_ext; intros [[k v] ty].
  destruct (String.eqb _ _); [|reflexivity].
  assert (E : fuzzy_match_value g v = fuzzy_match_value g' v).
  { destruct v; try reflexivity. unfold fuzzy_match_value, fuzzy_match.
    cbv zeta. now rewrite Hg. }
  now rewrite E.
Qed.

(** X10.  The program reads the guess only through its lowercased,
    stripped form: two guesses with the same such form give the same
    result, the same output and the same registry accesses, in either
    mode. *)
Theorem guess_read_normalized reg g g' verbose :
  strip (lower g) = strip (lower g') ->
  main reg g verbose = main reg g' verbose.
Proof.
  intros Hg. unfold main, find_application_display_name_by_name. cbv zeta.
  f_equal. apply with_handle_ext; intros hive.
  apply for_each_ext; intros ms sub_key.
  now rewrite (search_hive_guess g g' hive sub_key Hg).
Qed.

Lemma guess_read_normalized_witness :
  strip (lower "  NotePAD ") = strip (lower "notepad")
  /\ main fixture "  NotePAD " false = main fixture "notepad" false.
Proof.
  split; [reflexivity|].
  exact (guess_read_normalized fixture "  NotePAD " "notepad" false eq_refl).
Defined.

(** X11.  The program reads the store only through the availability of
    the root and the first configured uninstall key: two stores that
    agree on these give the same result, output and accesses, whatever
    else they hold - the second configured path included. *)
Theorem only_first_hive_read reg reg' guess verbose :
  hklm_available reg = hklm_available reg' ->
  lookup_key scanned_hive (key_subkeys (hklm reg))
  = lookup_key scanned_hive (key_subkeys (hklm reg')) ->
  main reg guess verbose = main reg' guess verbose.
Proof.
  intros Hc Hl. unfold main. f_equal.
  unfold find_application_display_name_by_name, with_handle, ConnectRegistry.
  rewrite Hc. destruct (hklm_available reg'); [|reflexivity].
  change (firstn 1 uninstall_hives) with [scanned_hive]. cbn [for_each].
  unfold search_hive, with_handle, OpenKey. cbn [h_key h_path emit ret bind].
  rewrite Hl. reflexivity.
Qed.

Lemma only_first_hive_read_witness :
  hklm_available fixture = hklm_available fixture_wow64
  /\ lookup_key scanned_hive (key_subkeys (hklm fixture))
     = lookup_key scanned_hive (key_subkeys (hklm fixture_wow64))
  /\ main fixture "foo" false = main fixture_wow64 "foo" false.
Proof.
  split; [reflexivity | split; [reflexivity|]].
  exact (only_first_hive_read fixture fixture_wow64 "foo" false
           eq_refl eq_refl).
Defined.

(** * Further properties of the entry point *)

Lemma terse_loop (matches : list record) :
  for_each matches tt (fun _ m =>
    match m !! "DisplayName" with
    | Some v => emit (EvPrint (OutText v))
    | None => raise (KeyError "DisplayName")
    end)
  = (if forallb has_exact_key matches then Ok tt
     else Err (KeyError "DisplayName"),
     map EvPrint (terse_lines matches)).
Proof.
  induction matches as [|m matches IH]; [reflexivity|].
  cbn [for_each forallb terse_lines]. unfold has_exact_key at 1.
  destruct (m !! "DisplayName") as [v|]; [|reflexivity].
  unfold emit, bind in *. cbn beta iota. rewrite IH. reflexivity.
Qed.

Lemma stdout_prints (lines : list out_line) : stdout (map EvPrint lines) = lines.
Proof. induction lines as [|l lines IH]; simpl; [reflexivity | now f_equal]. Qed.

(** X12.  In terse mode, after a query that returned, the program
    prints the value spelled [DisplayName] of each match in order, up to
    the first match that has no entry of that exact spelling; it ends
    normally when every match has one and raises [KeyError] at the first
    that has none, the lines before it already printed. *)
Theorem terse_output reg guess found :
  result_of (find_application_display_name_by_name reg guess) = Ok found ->
  result_of (main reg guess false)
  = (if forallb has_exact_key found then Ok tt
     else Err (KeyError "DisplayName"))
  /\ stdout (trace_of (main reg guess false)) = terse_lines found.
Proof.
  intros H. unfold main.
  rewrite result_of_bind, (trace_of_bind_ok _ _ _ H), H. simpl bind_result.
  rewrite terse_loop. split; [reflexivity|].
  unfold stdout at 1. rewrite flat_map_app.
  fold (stdout (trace_of (find_application_display_name_by_name reg guess))).
  rewrite find_prints_nothing. simpl. apply stdout_prints.
Qed.

Lemma terse_output_witness :
  result_of (find_application_display_name_by_name mixed_spelling "")
  = Ok [record_A; <["displayname" := VStr "Foo"]> ∅; record_B]
  /\ result_of (main mixed_spelling "" false)
     = (if forallb has_exact_key
             [record_A; <["displayname" := VStr "Foo"]> ∅; record_B]
        then Ok tt else Err (KeyError "DisplayName"))
  /\ stdout (trace_of (main mixed_spelling "" false))
     = terse_lines [record_A; <["displayname" := VStr "Foo"]> ∅; record_B].
Proof.
  assert (H : result_of
                (find_application_display_name_by_name mixed_spelling "")
              = Ok [record_A; <["displayname" := VStr "Foo"]> ∅; record_B])
    by (vm_compute; reflexivity).
  split; [exact H|].
  exact (terse_output mixed_spelling ""
           [record_A; <["displayname" := VStr "Foo"]> ∅; record_B] H).
Defined.

Example mixed_spelling_output :
  main mixed_spelling "" false
  = (Err (KeyError "DisplayName"),
     trace_of (find_application_display_name_by_name mixed_spelling "")
     ++ [EvPrint (OutText (VStr "Notepad++"))]).
Proof. vm_compute. reflexivity. Qed.

Lemma fold_insert_source (vals : list reg_value) (d0 : record) n v :
  fold_left (fun d rv => <[rv_name rv := rv_data rv]> d) vals d0 !! n = Some v ->
  d0 !! n = Some v
  \/ exists rv, In rv vals /\ rv_name rv = n /\ rv_data rv = v.
Proof.
  intros H. apply fold_insert_last in H
    as [(pre & rv & post & -> & Hn & Hv & _) | [H _]]; [right | now left].
  exists rv. split; [|auto]. apply in_or_app. right. now left.
Qed.

(** X13.  In every record a query returns, some entry has a name that
    normalizes to [displayname], and every entry with such a name holds
    a string. *)
Theorem returned_display_names_are_strings reg name_guess found :
  result_of (find_application_display_name_by_name reg name_guess) = Ok found ->
  Forall (fun m : record =>
            (exists n, is_display_name n = true /\ is_Some (m !! n))
            /\ forall n v, is_display_name n = true -> m !! n = Some v ->
                           is_str v = true)
    found.
Proof.
  intros H. apply query_inv in H as (_ & _ & Hok & ->).
  apply List.Forall_forall. intros m Hm.
  apply in_flat_map in Hm as (k & Hk & Hm).
  apply contribution_In in Hm as (-> & rv & Hrv & Hhit).
  apply hit_is_named in Hhit as [Hn _]. split.
  - exists (rv_name rv). split; [exact Hn|]. apply details_of_names. eauto.
  - intros n v Hdn Hv. unfold details_of in Hv.
    apply fold_insert_source in Hv as [Hv | (rv' & Hrv' & <- & <-)];
      [now rewrite lookup_empty in Hv|].
    rewrite forallb_forall in Hok. specialize (Hok k Hk).
    unfold app_key_ok, display_names_typed in Hok.
    apply andb_true_iff in Hok as [_ Hty].
    rewrite forallb_forall in Hty. specialize (Hty rv' Hrv').
    now rewrite Hdn in Hty.
Qed.

Lemma returned_display_names_are_strings_witness :
  result_of (find_application_display_name_by_name sized "notepad")
  = Ok [details_of key_sized]
  /\ Forall (fun m : record =>
               (exists n, is_display_name n = true /\ is_Some (m !! n))
               /\ forall n v, is_display_name n = true -> m !! n = Some v ->
                              is_str v = true)
       [details_of key_sized].
Proof.
  assert (H : result_of (find_application_display_name_by_name sized "notepad")
              = Ok [details_of key_sized]) by (vm_compute; reflexivity).
  split; [exact H|].
  exact (returned_display_names_are_strings sized "notepad"
           [details_of key_sized] H).
Defined.

Lemma no_connect_filter t :
  forallb (fun ev => negb (is_connect ev)) t = true ->
  List.filter is_connect t = [].
Proof.
  induction t as [|ev t IH]; simpl; [reflexivity|].
  rewrite andb_true_iff. intros [Hev Ht]. apply negb_true_iff in Hev.
  rewrite Hev. auto.
Qed.

(** X14.  Whatever the store holds, whatever the guess and the mode, and
    however the run ends, the program connects to the registry exactly
    once when the root is available, and never when it is not. *)
Theorem program_connects_once reg guess verbose :
  length (List.filter is_connect (trace_of (main reg guess verbose)))
  = if hklm_available reg then 1%nat else 0%nat.
Proof.
  unfold main.
  destruct (result_of (find_application_display_name_by_name reg guess))
    as [found|e] eqn:E.
  - rewrite (trace_of_bind_ok _ _ _ E), List.filter_app, length_app.
    rewrite connects_once, no_connect_filter; [simpl; lia|].
    apply within_for_each. intros [] m. destruct verbose.
    + unfold json_dumps. destruct (forallb _ _); reflexivity.
    + destruct (m !! "DisplayName"); reflexivity.
  - rewrite (trace_of_bind_err _ _ _ E). apply connects_once.
Qed.

(** * Occurrences *)

Section Occurrences.

Implicit Types (s t u a b : string).

Lemma lstrip_before_clean a t :
  t <> "" -> clean_head t = true -> lstrip (a +:+ t) = lstrip a +:+ t.
Proof.
  intros Hne Hh. induction a as [|c a IH].
  - rewrite !str_app_nil_l. now apply lstrip_clean.
  - rewrite str_app_cons. simpl. destruct (isspace c); [exact IH|].
    now rewrite str_app_cons.
Qed.

Lemma rstrip_after_clean t b :
  t <> "" -> clean_last t = true -> rstrip (t +:+ b) = t +:+ rstrip b.
Proof.
  intros Hne Hl. induction t as [|c t IH]; [contradiction|].
  rewrite !str_app_cons. simpl. destruct t as [|d t].
  - rewrite !str_app_nil_l. simpl in Hl. apply negb_true_iff in Hl.
    rewrite Hl. now destruct (rstrip b).
  - rewrite IH by (discriminate || exact Hl). now rewrite str_app_cons.
Qed.

Lemma rstrip_behind a u :
  rstrip u <> "" -> rstrip (a +:+ u) = a +:+ rstrip u.
Proof.
  intros Hne. induction a as [|c a IH]; [reflexivity|].
  rewrite !str_app_cons. simpl. rewrite IH.
  destruct (a +:+ rstrip u) eqn:E; [|reflexivity].
  destruct a; [now rewrite str_app_nil_l in E | discriminate].
Qed.

Lemma append_not_empty t u : t <> "" -> t +:+ u <> "".
Proof. destruct t; [contradiction | discriminate]. Qed.

Lemma clean_head_append t u :
  t <> "" -> clean_head (t +:+ u) = clean_head t.
Proof. destruct t; [contradiction | reflexivity]. Qed.

(** Stripping keeps occurrences: what occurs in a string occurs, once
    stripped, in the stripped string. *)
Lemma Substring_strip s t : Substring s t -> Substring (strip s) (strip t).
Proof.
  intros (pre & post & ->).
  destruct (strip_Trimmed s) as (l & r & Hs & Hl & Hr & Hh & Ht).
  destruct (strip s) as [|c ts] eqn:E.
  { exists "", (strip (pre +:+ s +:+ post)). reflexivity. }
  set (ts' := String c ts) in *.
  assert (Hne : ts' <> "") by discriminate.
  exists (lstrip (pre +:+ l)), (rstrip (r +:+ post)).
  rewrite Hs at 1. unfold strip.
  replace (pre +:+ (l +:+ ts' +:+ r) +:+ post)
    with ((pre +:+ l) +:+ (ts' +:+ (r +:+ post)))
    by now rewrite !str_app_assoc.
  rewrite lstrip_before_clean;
    [| now apply append_not_empty | now rewrite clean_head_append].
  rewrite rstrip_behind; rewrite rstrip_after_clean; auto.
Qed.

Lemma Substring_sym_lower a b :
  Substring (lower a) (lower b) ->
  Substring (lower (strip a)) (lower (strip b)).
Proof. intros H. rewrite <- !strip_lower. now apply Substring_strip. Qed.

End Occurrences.

(** X15.  A string that occurs in another, case ignored, matches it:
    when the lowercased [a] is a substring of the lowercased [b], the
    matcher accepts the pair in either order. *)
Theorem occurrence_matches (a b : string) :
  Substring (lower a) (lower b) ->
  fuzzy_match a b = true /\ fuzzy_match b a = true.
Proof.
  intros H. apply Substring_sym_lower in H.
  split; apply fuzzy_match_substring; auto.
Qed.

Lemma occurrence_matches_witness :
  Substring (lower "PAD") (lower " Notepad++ ")
  /\ fuzzy_match "PAD" " Notepad++ " = true
  /\ fuzzy_match " Notepad++ " "PAD" = true.
Proof.
  assert (H : Substring (lower "PAD") (lower " Notepad++ "))
    by (exists " note", "++ "; reflexivity).
  split; [exact H | exact (occurrence_matches "PAD" " Notepad++ " H)].
Defined.

(** * The walk up to the first failure *)

Lemma for_each_stop {A S} (xs ys : list A) (x : A) (s s1 : S) (e : error)
  (body : S -> A -> M S) :
  result_of (for_each xs s body) = Ok s1 ->
  result_of (body s1 x) = Err e ->
  trace_of (for_each (xs ++ x :: ys) s body)
  = trace_of (for_each xs s body) ++ trace_of (body s1 x).
Proof.
  revert s; induction xs as [|x0 xs IH]; intros s Hok Herr; simpl in *.
  - injection Hok as <-. now rewrite (trace_of_bind_err _ _ _ Herr).
  - rewrite result_of_bind in Hok.
    destruct (result_of (body s x0)) as [s0|e0] eqn:E; [|discriminate].
    rewrite !(trace_of_bind_ok _ _ _ E), <- app_assoc. f_equal. now apply IH.
Qed.

Lemma resolve_NoDup ks l :
  NoDup (map key_name ks) -> (forall k, In k l -> In k ks) ->
  flat_map (fun k => option_list (lookup_key (key_name k) ks)) l = l.
Proof.
  intros Hnd. induction l as [|k l IH]; intros Hl; simpl; [reflexivity|].
  rewrite (lookup_key_NoDup k ks Hnd) by (apply Hl; now left).
  simpl. f_equal. apply IH. intros k' Hk'. apply Hl. now right.
Qed.

Lemma search_hive_stop_trace name_guess hive uk good bad rest :
  lookup_key (key_name uk) (key_subkeys (h_key hive)) = Some uk ->
  key_ok uk = true ->
  NoDup (map key_name (key_subkeys uk)) ->
  key_subkeys uk = good ++ bad :: rest ->
  forallb app_key_ok good = true ->
  app_key_ok bad = false ->
  trace_of (search_hive name_guess hive (key_name uk))
  = EvOpen (h_path hive ++ [key_name uk])
    :: (flat_map
          (fun k =>
             [ EvOpen ((h_path hive ++ [key_name uk]) ++ [key_name k]);
               EvClose ((h_path hive ++ [key_name uk]) ++ [key_name k]) ])
          good
        ++ (if key_readable bad
            then [ EvOpen ((h_path hive ++ [key_name uk]) ++ [key_name bad]);
                   EvClose ((h_path hive ++ [key_name uk]) ++ [key_name bad]) ]
            else []))
    ++ [EvClose (h_path hive ++ [key_name uk])].
Proof.
  intros El Huk Hnd Hks Hgood Hbad.
  unfold key_ok in Huk. apply andb_true_iff in Huk as [Hr He].
  assert (Hin : forall k, In k (good ++ [bad]) -> In k (key_subkeys uk)).
  { intros k Hk. rewrite Hks. apply in_app_or in Hk as [Hk | [-> | []]];
      apply in_or_app; [now left | right; now left]. }
  unfold search_hive.
  set (h := Handle (h_path hive ++ [key_name uk]) uk).
  assert (Ha : OpenKey hive (key_name uk) = (Ok h, [EvOpen (h_path h)]))
    by (unfold OpenKey; rewrite El, Hr; reflexivity).
  rewrite (with_handle_trace _ _ h [EvOpen (h_path h)] Ha).
  simpl. do 2 f_equal.
  assert (Hq : result_of (QueryInfoKey h)
               = Ok (length (key_subkeys uk), length (key_values uk)))
    by (unfold QueryInfoKey; simpl; now rewrite He).
  rewrite (trace_of_bind_ok _ _ _ Hq), silent_QueryInfoKey. simpl.
  pose proof (enum_keys_result h He) as Hn. simpl h_key in Hn.
  rewrite (trace_of_bind_ok _ _ _ Hn).
  rewrite silent_for_each
    by (intros acc i; apply silent_bind;
        [apply silent_EnumKey | reflexivity]).
  simpl. rewrite Hks, map_app. simpl map.
  match goal with
  | |- trace_of (for_each _ _ ?b) = _ => set (body := b)
  end.
  assert (Hres : forall ms name,
            result_of (body ms name)
            = match lookup_key name (key_subkeys uk) with
              | Some k => scan_key name_guess ms k
              | None => Err OSError
              end)
    by (intros ms name; apply (scan_key_result name_guess h name ms)).
  assert (Hpre : result_of (for_each (map key_name good) [] body)
                 = Ok (flat_map (contribution name_guess) good)).
  { rewrite result_of_for_each.
    rewrite (fold_result_ext _ _ _ _ (fun ms name _ => Hres ms name)).
    rewrite scan_names_result
      by (intros k Hk; apply Hin, in_or_app; now left).
    rewrite resolve_NoDup;
      [| exact Hnd | intros k Hk; apply Hin, in_or_app; now left].
    now apply scan_keys_ok. }
  assert (Hlb : lookup_key (key_name bad) (key_subkeys uk) = Some bad).
  { apply lookup_key_NoDup; [exact Hnd|]. apply Hin, in_or_app.
    right. now left. }
  destruct (scan_key_err name_guess
              (flat_map (contribution name_guess) good) bad Hbad) as [e Herr].
  rewrite (for_each_stop _ _ _ _ _ e _ Hpre)
    by now rewrite Hres, Hlb.
  rewrite (for_each_trace _ _ _ _
             (fun name => [EvOpen (h_path h ++ [name]);
                           EvClose (h_path h ++ [name])]) Hpre).
  - rewrite flat_map_concat_map, map_map, <- flat_map_concat_map.
    f_equal. destruct (key_readable bad) eqn:Erb.
    + apply (scan_key_trace name_guess h bad); assumption.
    + unfold body, with_handle, OpenKey. simpl h_key.
      now rewrite Hlb, Erb.
  - intros ms name Hk. apply in_map_iff in Hk as (k & <- & Hk).
    assert (Hk' : In k (key_subkeys uk)) by (apply Hin, in_or_app; now left).
    apply (scan_key_trace name_guess h k ms).
    + now apply lookup_key_NoDup.
    + rewrite forallb_forall in Hgood. specialize (Hgood k Hk).
      unfold app_key_ok, key_ok in Hgood.
      now apply andb_true_iff in Hgood as [[? _]%andb_true_iff _].
Qed.

(** X16.  The walk stops at the first child key that fails.  On a
    reachable store whose scanned child keys are sound up to a key that
    cannot be opened, cannot be enumerated or holds a display name that
    is not a string, the query raises; it has opened and closed the
    sound keys before it in order, has opened the failing key only if it
    can be opened (and then closed it), has opened none of the keys
    after it, and has closed the uninstall key and the root. *)
Theorem walk_stops_at_first_failure reg name_guess good bad rest :
  reachable reg ->
  scanned_keys reg = good ++ bad :: rest ->
  forallb app_key_ok good = true ->
  app_key_ok bad = false ->
  (exists e,
     result_of (find_application_display_name_by_name reg name_guess) = Err e)
  /\ trace_of (find_application_display_name_by_name reg name_guess)
     = EvConnect
       :: EvOpen [scanned_hive]
       :: flat_map
            (fun k =>
               [ EvOpen [scanned_hive; key_name k];
                 EvClose [scanned_hive; key_name k] ])
            good
       ++ (if key_readable bad
           then [ EvOpen [scanned_hive; key_name bad];
                  EvClose [scanned_hive; key_name bad] ]
           else [])
       ++ [EvClose [scanned_hive]; EvClose []].
Proof.
  intros Hreach Hks Hgood Hbad. split.
  - rewrite (query_reachable _ _ Hreach). apply scan_keys_err.
    rewrite Hks, forallb_app. simpl. now rewrite Hbad, andb_false_r.
  - destruct Hreach as (Hc & Hs & Hnd).
    change (firstn 1 uninstall_hives) with [scanned_hive] in Hs.
    cbn [forallb] in Hs. rewrite andb_true_r in Hs.
    rewrite scanned_keys_eq in *. unfold subtree_ok, subtree_keys in *.
    destruct (lookup_key scanned_hive (key_subkeys (hklm reg)))
      as [uk|] eqn:El; [|discriminate].
    pose proof (lookup_key_In _ _ _ El) as [_ En].
    unfold find_application_display_name_by_name.
    rewrite (with_handle_trace _ _ (Handle [] (hklm reg)) [EvConnect])
      by (unfold ConnectRegistry; rewrite Hc; reflexivity).
    change (firstn 1 uninstall_hives) with [scanned_hive]. cbn [for_each].
    rewrite trace_of_bind_ret, trace_of_bind_ret.
    rewrite <- En in *.
    rewrite (search_hive_stop_trace name_guess (Handle [] (hklm reg)) uk
               good bad rest); try assumption.
    simpl. rewrite <- !app_assoc. reflexivity.
Qed.

Lemma walk_stops_at_first_failure_witness :
  reachable locked
  /\ scanned_keys locked = [key_A] ++ key_locked :: [key_B]
  /\ forallb app_key_ok [key_A] = true
  /\ app_key_ok key_locked = false
  /\ (exists e,
        result_of (find_application_display_name_by_name locked "notepad")
        = Err e)
  /\ trace_of (find_application_display_name_by_name locked "notepad")
     = EvConnect
       :: EvOpen [scanned_hive]
       :: flat_map
            (fun k =>
               [ EvOpen [scanned_hive; key_name k];
                 EvClose [scanned_hive; key_name k] ])
            [key_A]
       ++ (if key_readable key_locked
           then [ EvOpen [scanned_hive; key_name key_locked];
                  EvClose [scanned_hive; key_name key_locked] ]
           else [])
       ++ [EvClose [scanned_hive]; EvClose []].
Proof.
  assert (R : reachable locked) by store_by_computation.
  assert (K : scanned_keys locked = [key_A] ++ key_locked :: [key_B])
    by reflexivity.
  split; [exact R | split; [exact K | split; [reflexivity|]]].
  split; [reflexivity|].
  exact (walk_stops_at_first_failure locked "notepad" [key_A] key_locked
           [key_B] R K eq_refl eq_refl).
Defined.

(** * Failures of the store *)

Lemma M_eta {A} (m : M A) : m = (result_of m, trace_of m).
Proof. now destruct m. Qed.

Lemma scan_key_unreadable name_guess matches k :
  key_ok k = false -> scan_key name_guess matches k = Err OSError.
Proof.
  unfold key_ok, scan_key. destruct (key_readable k); [|reflexivity].
  destruct (key_enumerable k); [discriminate | reflexivity].
Qed.

Lemma scan_keys_stop name_guess good bad rest matches e :
  forallb app_key_ok good = true ->
  (forall ms, scan_key name_guess ms bad = Err e) ->
  fold_result (good ++ bad :: rest) matches (scan_key name_guess) = Err e.
Proof.
  intros Hgood Hbad. revert matches.
  induction good as [|k good IH]; intros matches; simpl.
  - now rewrite Hbad.
  - simpl in Hgood. apply andb_true_iff in Hgood as [Hk Hgood].
    rewrite (scan_key_ok _ _ _ Hk). simpl. now apply IH.
Qed.

(** The accesses of a query on a reachable store, up to the first child
    key that is not sound. *)
Lemma stopped_query_trace reg name_guess good bad rest :
  reachable reg ->
  scanned_keys reg = good ++ bad :: rest ->
  forallb app_key_ok good = true ->
  app_key_ok bad = false ->
  trace_of (find_application_display_name_by_name reg name_guess)
  = EvConnect
    :: EvOpen [scanned_hive]
    :: flat_map
         (fun k =>
            [ EvOpen [scanned_hive; key_name k];
              EvClose [scanned_hive; key_name k] ])
         good
    ++ (if key_readable bad
        then [ EvOpen [scanned_hive; key_name bad];
               EvClose [scanned_hive; key_name bad] ]
        else [])
    ++ [EvClose [scanned_hive]; EvClose []].
Proof.
  intros (Hc & Hs & Hnd) Hks Hgood Hbad.
  change (firstn 1 uninstall_hives) with [scanned_hive] in Hs.
  cbn [forallb] in Hs. rewrite andb_true_r in Hs.
  rewrite scanned_keys_eq in *. unfold subtree_ok, subtree_keys in *.
  destruct (lookup_key scanned_hive (key_subkeys (hklm reg)))
    as [uk|] eqn:El; [|discriminate].
  pose proof (lookup_key_In _ _ _ El) as [_ En].
  unfold find_application_display_name_by_name.
  rewrite (with_handle_trace _ _ (Handle [] (hklm reg)) [EvConnect])
    by (unfold ConnectRegistry; rewrite Hc; reflexivity).
  change (firstn 1 uninstall_hives) with [scanned_hive]. cbn [for_each].
  rewrite trace_of_bind_ret, trace_of_bind_ret.
  rewrite <- En in *.
  rewrite (search_hive_stop_trace name_guess (Handle [] (hklm reg)) uk
             good bad rest); try assumption.
  simpl. rewrite <- !app_assoc. reflexivity.
Qed.

(** The scanned uninstall key is missing or cannot be opened and
    enumerated: the query raises before it reaches a child key. *)
Lemma unreadable_hive reg name_guess :
  hklm_available reg = true ->
  subtree_ok reg scanned_hive = false ->
  find_application_display_name_by_name reg name_guess
  = (Err OSError,
     EvConnect
     :: match lookup_key scanned_hive (key_subkeys (hklm reg)) with
        | Some uk =>
            if key_readable uk
            then [EvOpen [scanned_hive]; EvClose [scanned_hive]]
            else []
        | None => []
        end
     ++ [EvClose []]).
Proof.
  intros Hc Hs.
  unfold find_application_display_name_by_name, with_handle, ConnectRegistry.
  rewrite Hc. change (firstn 1 uninstall_hives) with [scanned_hive].
  cbn [for_each bind emit ret].
  unfold search_hive, with_handle, OpenKey. cbn [h_key h_path].
  unfold subtree_ok, key_ok in Hs.
  destruct (lookup_key scanned_hive (key_subkeys (hklm reg))) as [uk|];
    [|reflexivity].
  destruct (key_readable uk); [|reflexivity].
  cbn [bind emit ret]. unfold QueryInfoKey. cbn [h_key].
  simpl in Hs. rewrite Hs. reflexivity.
Qed.

(** C6.  A failure of the store aborts the query: the store's error is
    what the query raises, no result list is returned, and the walk goes
    no further.  When the root cannot be connected to, nothing is
    opened.  When the scanned uninstall key is missing or cannot be
    opened and enumerated, no child key is opened.  When a child key
    cannot be opened or enumerated, the sound child keys before it have
    been opened and closed, the failing key has been opened only if it
    can be (and then closed), the child keys after it are not opened -
    the failing key is not skipped - and the uninstall key and the root
    are closed.  Whatever error the query raises, the program ends with
    that error and has printed nothing, in either mode. *)
Theorem store_failure_aborts reg name_guess :
  (hklm_available reg = false ->
   find_application_display_name_by_name reg name_guess = (Err OSError, []))
  /\ (hklm_available reg = true ->
      subtree_ok reg scanned_hive = false ->
      find_application_display_name_by_name reg name_guess
      = (Err OSError,
         EvConnect
         :: match lookup_key scanned_hive (key_subkeys (hklm reg)) with
            | Some uk =>
                if key_readable uk
                then [EvOpen [scanned_hive]; EvClose [scanned_hive]]
                else []
            | None => []
            end
         ++ [EvClose []]))
  /\ (forall good bad rest,
        reachable reg ->
        scanned_keys reg = good ++ bad :: rest ->
        forallb app_key_ok good = true ->
        key_ok bad = false ->
        find_application_display_name_by_name reg name_guess
        = (Err OSError,
           EvConnect
           :: EvOpen [scanned_hive]
           :: flat_map
                (fun k =>
                   [ EvOpen [scanned_hive; key_name k];
                     EvClose [scanned_hive; key_name k] ])
                good
           ++ (if key_readable bad
               then [ EvOpen [scanned_hive; key_name bad];
                      EvClose [scanned_hive; key_name bad] ]
               else [])
           ++ [EvClose [scanned_hive]; EvClose []]))
  /\ (forall e verbose,
        result_of (find_application_display_name_by_name reg name_guess)
        = Err e ->
        result_of (main reg name_guess verbose) = Err e
        /\ stdout (trace_of (main reg name_guess verbose)) = []).
Proof.
  split; [|split; [|split]].
  - intros Hc. unfold find_application_display_name_by_name, with_handle,
      ConnectRegistry. rewrite Hc. reflexivity.
  - apply unreadable_hive.
  - intros good bad rest Hreach Hks Hgood Hbad.
    assert (Hbad' : app_key_ok bad = false)
      by (unfold app_key_ok; now rewrite Hbad).
    rewrite (M_eta (find_application_display_name_by_name reg name_guess)).
    f_equal.
    + rewrite (query_reachable _ _ Hreach), Hks.
      apply scan_keys_stop; [exact Hgood|].
      intros ms. now apply scan_key_unreadable.
    + now apply (stopped_query_trace reg name_guess good bad rest).
  - intros e verbose He. now apply main_trace_on_error.
Qed.

Lemma store_failure_aborts_witness :
  (hklm_available offline = false
   /\ find_application_display_name_by_name offline "notepad"
      = (Err OSError, []))
  /\ (hklm_available sealed_hive = true
      /\ subtree_ok sealed_hive scanned_hive = false
      /\ find_application_display_name_by_name sealed_hive "notepad"
         = (Err OSError,
            [EvConnect; EvOpen [scanned_hive]; EvClose [scanned_hive];
             EvClose []]))
  /\ (reachable locked
      /\ scanned_keys locked = [key_A] ++ key_locked :: [key_B]
      /\ forallb app_key_ok [key_A] = true
      /\ key_ok key_locked = false
      /\ find_application_display_name_by_name locked "notepad"
         = (Err OSError,
            [EvConnect; EvOpen [scanned_hive];
             EvOpen [scanned_hive; "A"]; EvClose [scanned_hive; "A"];
             EvClose [scanned_hive]; EvClose []]))
  /\ (result_of (find_application_display_name_by_name locked "notepad")
      = Err OSError
      /\ forall verbose,
           result_of (main locked "notepad" verbose) = Err OSError
           /\ stdout (trace_of (main locked "notepad" verbose)) = []).
Proof.
  assert (R : reachable locked) by store_by_computation.
  assert (E : result_of (find_application_display_name_by_name locked "notepad")
              = Err OSError) by (vm_compute; reflexivity).
  split; [|split; [|split]].
  - split; [reflexivity|].
    exact (proj1 (store_failure_aborts offline "notepad") eq_refl).
  - split; [reflexivity | split; [reflexivity|]].
    exact (proj1 (proj2 (store_failure_aborts sealed_hive "notepad"))
             eq_refl eq_refl).
  - split; [exact R | split; [reflexivity | split; [reflexivity|]]].
    split; [reflexivity|].
    exact (proj1 (proj2 (proj2 (store_failure_aborts locked "notepad")))
             [key_A] key_locked [key_B] R eq_refl eq_refl eq_refl).
  - split; [exact E|]. intros verbose.
    exact (proj2 (proj2 (proj2 (store_failure_aborts locked "notepad")))
             OSError verbose E).
Defined.

(** In verbose mode a binary value in a matched record makes
    [json.dumps] raise, and nothing is printed for that match. *)
Example binary_value_verbose :
  result_of (main binary_value "foo" true) = Err TypeError
  /\ stdout (trace_of (main binary_value "foo" true)) = []
  /\ stdout (trace_of (main binary_value "foo" false))
     = [OutText (VStr "Foo")].
Proof. repeat split; vm_compute; reflexivity. Qed.

Example fixture_verbose :
  stdout (trace_of (main fixture "" true))
  = [OutJson record_A; OutJson record_B].
Proof. vm_compute. reflexivity. Qed.
